(** * Transaction-lifecycle tracker ([src/solutions/creativedev.ts])

    A shallow embedding of the closure returned by [creativedev]: its
    five mutable collections become one record that is threaded through
    the handlers, and every call the handlers make on [api] or
    [outputApi] is appended to a trace.

    - [Set<string>] is [gset string], [Map<string, string>] is
      [gmap string string], the array [newTxs] is a list.
    - The oracle [api] is read-only: [getBody], [isTxValid] and
      [isTxSuccessful] are functions of their arguments.
    - The [while] loop of [onFinalized] has no bound, so the handlers
      take a number of loop tests they may spend and return [None] when
      it does not suffice.
    - The [console.log] lines are left out. *)

From stdpp Require Import gmap strings list fin_maps fin_sets.

Set Warnings "-clear-no-such-hyp".

Open Scope string_scope.
Open Scope nat_scope.
Open Scope list_scope.
Open Scope stdpp_scope.

(** ** Data model *)

(** The second argument of [onTxSettled] and [onTxDone]. *)
Inductive outcome :=
  | Invalid (blockHash : string)
  | Valid (blockHash : string) (successful : bool).

Inductive event :=
  | NewBlock (blockHash parent : string)
  | NewTransaction (value : string)
  | Finalized (blockHash : string).

(** The four entry points of [api] and the two of [outputApi], as they
    occur in a trace.  [unpin] belongs to the interface of [api]. *)
Inductive call :=
  | GetBody (blockHash : string)
  | IsTxValid (blockHash tx : string)
  | IsTxSuccessful (blockHash tx : string)
  | Unpin (blocks : list string)
  | OnTxSettled (tx : string) (o : outcome)
  | OnTxDone (tx : string) (o : outcome).

#[global] Instance outcome_eq_dec : EqDecision outcome.
Proof. solve_decision. Defined.

#[global] Instance call_eq_dec : EqDecision call.
Proof. solve_decision. Defined.

(** The answers of the chain oracle; the oracle is read-only, so the
    three queries are functions of their arguments. *)
Record API := {
  getBody : string → list string;
  isTxValid : string → string → bool;
  isTxSuccessful : string → string → bool;
}.

(** The closure variables of [creativedev] (lines 39-43). *)
Record state := {
  pendingTxs : gset string;
  settledTxs : gmap string string;
  doneTxs : gset string;
  newTxs : list string;
  blockParents : gmap string string;
}.

Definition init : state :=
  {| pendingTxs := ∅; settledTxs := ∅; doneTxs := ∅;
     newTxs := []; blockParents := ∅ |}.

(** [Map.prototype.has] and [Set.prototype.has]. *)
Definition map_has (m : gmap string string) (k : string) : bool :=
  match m !! k with Some _ => true | None => false end.

Definition set_has (s : gset string) (k : string) : bool :=
  bool_decide (k ∈ s).

(** [m.get(k) || ''] : an absent key and an empty value both give ['']. *)
Definition get_or_empty (m : gmap string string) (k : string) : string :=
  default "" (m !! k).

(** A [for ... of] loop over an array that the body does not change. *)
Fixpoint for_each {A} (body : state → A → state * list call)
    (st : state) (l : list A) : state * list call :=
  match l with
  | [] => (st, [])
  | x :: l' =>
      let '(st1, tr1) := body st x in
      let '(st2, tr2) := for_each body st1 l' in
      (st2, tr1 ++ tr2)
  end.

Section Tracker.
Variable api : API.

(** The value handed to the callback for [tx] settled in [blockHash]. *)
Definition outcome_of (blockHash tx : string) : outcome :=
  if isTxValid api blockHash tx
  then Valid blockHash (isTxSuccessful api blockHash tx)
  else Invalid blockHash.

(** The oracle queries that build that value: [isTxValid] always,
    [isTxSuccessful] only on the valid branch. *)
Definition oracle_calls (blockHash tx : string) : list call :=
  IsTxValid blockHash tx ::
  (if isTxValid api blockHash tx then [IsTxSuccessful blockHash tx] else []).

(** Body of the loop of [onNewBlock] (lines 52-73). *)
Definition settle_tx (blockHash : string) (st : state) (txHash : string)
    : state * list call :=
  if map_has (settledTxs st) txHash || set_has (doneTxs st) txHash
  then (st, [])
  else
    let queue :=
      if set_has (pendingTxs st) txHash then newTxs st
      else newTxs st ++ [txHash] in
    ({| pendingTxs := pendingTxs st ∖ {[txHash]};
        settledTxs := <[txHash := blockHash]> (settledTxs st);
        doneTxs := doneTxs st;
        newTxs := queue;
        blockParents := blockParents st |},
     oracle_calls blockHash txHash
       ++ [OnTxSettled txHash (outcome_of blockHash txHash)]).

Definition onNewBlock (st : state) (blockHash parent : string)
    : state * list call :=
  let st1 :=
    {| pendingTxs := pendingTxs st;
       settledTxs := settledTxs st;
       doneTxs := doneTxs st;
       newTxs := newTxs st;
       blockParents := <[blockHash := parent]> (blockParents st) |} in
  let txsInBlock := getBody api blockHash in
  let '(st2, tr) := for_each (settle_tx blockHash) st1 txsInBlock in
  (st2, GetBody blockHash :: tr).

Definition onNewTx (st : state) (transaction : string) : state * list call :=
  if negb (set_has (pendingTxs st) transaction)
     && negb (map_has (settledTxs st) transaction)
     && negb (set_has (doneTxs st) transaction)
  then
    ({| pendingTxs := {[transaction]} ∪ pendingTxs st;
        settledTxs := settledTxs st;
        doneTxs := doneTxs st;
        newTxs := newTxs st ++ [transaction];
        blockParents := blockParents st |}, [])
  else (st, []).

(** The [while (current)] loop (lines 88-93).  The loop has no bound
    of its own, so the model counts iterations: [None] says that
    [fuel] tests of the loop condition were not enough. *)
Fixpoint walk (fuel : nat) (parents : gmap string string)
    (current : string) (finalizedBlocks : gset string)
    : option (gset string) :=
  match fuel with
  | O => None
  | S fuel' =>
      if decide (current = "") then Some finalizedBlocks
      else walk fuel' parents (get_or_empty parents current)
                ({[current]} ∪ finalizedBlocks)
  end.

(** Lines 95-100: the settled transactions whose block was collected. *)
Definition txs_to_done (finalizedBlocks : gset string)
    (settled : gmap string string) : gset string :=
  dom (filter (λ kv, kv.2 ∈ finalizedBlocks) settled).

(** Body of the loop over [newTxs] (lines 103-122). *)
Definition done_tx (txsToDone : gset string) (st : state) (txHash : string)
    : state * list call :=
  if set_has txsToDone txHash then
    let blockHash := get_or_empty (settledTxs st) txHash in
    ({| pendingTxs := pendingTxs st;
        settledTxs := delete txHash (settledTxs st);
        doneTxs := {[txHash]} ∪ doneTxs st;
        newTxs := newTxs st;
        blockParents := blockParents st |},
     oracle_calls blockHash txHash
       ++ [OnTxDone txHash (outcome_of blockHash txHash)])
  else (st, []).

Definition onFinalized (fuel : nat) (st : state) (blockHash : string)
    : option (state * list call) :=
  match walk fuel (blockParents st) blockHash ∅ with
  | None => None
  | Some finalizedBlocks =>
      let txsToDone := txs_to_done finalizedBlocks (settledTxs st) in
      Some (for_each (done_tx txsToDone) st (newTxs st))
  end.

(** The returned dispatcher (lines 126-139). *)
Definition handle (fuel : nat) (st : state) (e : event)
    : option (state * list call) :=
  match e with
  | NewBlock blockHash parent => Some (onNewBlock st blockHash parent)
  | NewTransaction value => Some (onNewTx st value)
  | Finalized blockHash => onFinalized fuel st blockHash
  end.

(** Feeding a sequence of events to the dispatcher, one after the
    other; the traces of the handlers are concatenated. *)
Fixpoint run (fuel : nat) (st : state) (events : list event)
    : option (state * list call) :=
  match events with
  | [] => Some (st, [])
  | e :: events' =>
      match handle fuel st e with
      | None => None
      | Some (st1, tr1) =>
          match run fuel st1 events' with
          | None => None
          | Some (st2, tr2) => Some (st2, tr1 ++ tr2)
          end
      end
  end.

End Tracker.

(** ** A small chain used in the examples

    [b1] and [b1'] are children of [genesis], [b2] is a child of [b1];
    [b1] holds [t2], [b2] holds [t1] and [t3], the fork [b1'] holds [t4],
    and a later block [b3] lists [t2] once more, before [t5]. *)
Definition demo_api : API :=
  {| getBody := λ b,
       if decide (b = "b1") then ["t2"]
       else if decide (b = "b2") then ["t1"; "t3"]
       else if decide (b = "b1'") then ["t4"]
       else if decide (b = "b3") then ["t2"; "t5"]
       else [];
     isTxValid := λ b t, negb (bool_decide (t = "t3"));
     isTxSuccessful := λ b t, bool_decide (t = "t1") |}.

Definition demo_events : list event :=
  [NewTransaction "t1"; NewTransaction "t2";
   NewBlock "b1" "genesis"; NewBlock "b1'" "genesis"; NewBlock "b2" "b1"].

(** Heights for the blocks of the example chain. *)
Definition demo_height (b : string) : nat :=
  if decide (b = "b2") then 2
  else if decide (b = "b1") then 1
  else if decide (b = "b1'") then 1
  else 0.

Definition trace_of (r : option (state * list call)) : list call :=
  match r with Some (_, tr) => tr | None => [] end.

Definition state_of (r : option (state * list call)) : state :=
  match r with Some (st, _) => st | None => init end.

(** The calls made while [events] are fed to the dispatcher, up to the
    first handler (if any) that does not return within [fuel]. *)
Fixpoint emitted (api : API) (fuel : nat) (st : state) (events : list event)
    : list call :=
  match events with
  | [] => []
  | e :: events' =>
      match handle api fuel st e with
      | None => []
      | Some (st1, tr1) => tr1 ++ emitted api fuel st1 events'
      end
  end.


(** ** Observations on traces and states *)

Definition settled_of (c : call) : option string :=
  match c with OnTxSettled t _ => Some t | _ => None end.

Definition done_of (c : call) : option string :=
  match c with OnTxDone t _ => Some t | _ => None end.

(** The transactions reported settled (resp. done), in call order. *)
Definition settled_ids (tr : list call) : list string := omap settled_of tr.
Definition done_ids (tr : list call) : list string := omap done_of tr.

(** How many times a given call occurs in a trace. *)
Definition occurrences (c : call) (tr : list call) : nat :=
  length (filter (λ c', c' = c) tr).

Definition times_settled (t : string) (tr : list call) : nat :=
  length (filter (λ c, settled_of c = Some t) tr).

Definition times_done (t : string) (tr : list call) : nat :=
  length (filter (λ c, done_of c = Some t) tr).

(** Every identifier the tracker has seen so far. *)
Definition known (st : state) : gset string :=
  pendingTxs st ∪ dom (settledTxs st) ∪ doneTxs st.

(** The first occurrences in [l] of the elements outside [seen]. *)
Fixpoint fresh (seen : gset string) (l : list string) : list string :=
  match l with
  | [] => []
  | x :: l' =>
      if decide (x ∈ seen) then fresh seen l'
      else x :: fresh ({[x]} ∪ seen) l'
  end.

(** The identifiers an event shows to the tracker, in order. *)
Definition seen_txs (api : API) (e : event) : list string :=
  match e with
  | NewBlock blockHash _ => getBody api blockHash
  | NewTransaction value => [value]
  | Finalized _ => []
  end.

(** Lifecycle of one transaction, read off the three collections. *)
Inductive lifecycle := Unknown | Pending | Settled (blockHash : string) | Done.

Definition status (st : state) (t : string) : lifecycle :=
  if set_has (doneTxs st) t then Done
  else match settledTxs st !! t with
       | Some b => Settled b
       | None => if set_has (pendingTxs st) t then Pending else Unknown
       end.

(** [advances a b]: going from [a] to [b] is no step backward, and a
    settlement block, once recorded, is kept. *)
Definition advances (a b : lifecycle) : Prop :=
  match a, b with
  | Unknown, _ => True
  | Pending, Unknown => False
  | Pending, _ => True
  | Settled b1, Settled b2 => b1 = b2
  | Settled _, Done => True
  | Settled _, _ => False
  | Done, Done => True
  | Done, _ => False
  end.

(** The three lifecycle collections share no identifier. *)
Definition disjoint_sets (st : state) : Prop :=
  pendingTxs st ## dom (settledTxs st) ∧
  pendingTxs st ## doneTxs st ∧
  dom (settledTxs st) ## doneTxs st.

(** The same, read through the lookups the handlers make. *)
Definition separated (st : state) : Prop :=
  (∀ t, t ∈ pendingTxs st → settledTxs st !! t = None) ∧
  (∀ t, t ∈ pendingTxs st → t ∉ doneTxs st) ∧
  (∀ t, t ∈ doneTxs st → settledTxs st !! t = None).

(** [ancestor parents b a]: the walk started at [b] visits [a]. *)
Inductive ancestor (parents : gmap string string) : string → string → Prop :=
  | ancestor_self b : b ≠ "" → ancestor parents b b
  | ancestor_step b a :
      b ≠ "" → ancestor parents (get_or_empty parents b) a →
      ancestor parents b a.

(** [reaches_root parents b]: following the recorded links from [b]
    arrives at a block without a recorded (non-empty) parent. *)
Inductive reaches_root (parents : gmap string string) : string → Prop :=
  | reaches_root_here : reaches_root parents ""
  | reaches_root_step b :
      b ≠ "" → reaches_root parents (get_or_empty parents b) →
      reaches_root parents b.

(** [on_cycle parents b]: the walk started at the recorded parent of
    [b] comes back to [b]. *)
Definition on_cycle (parents : gmap string string) (b : string) : Prop :=
  ancestor parents (get_or_empty parents b) b.

(** Every recorded link goes to a block of smaller height. *)
Definition links_decrease (height : string → nat)
    (parents : gmap string string) : Prop :=
  map_Forall (λ b p, p ≠ "" → height p < height b) parents.

(** [unsettled st t]: the guard of line 52 lets [t] through. *)
Definition unsettled (st : state) (t : string) : Prop :=
  settledTxs st !! t = None ∧ t ∉ doneTxs st.

#[global] Instance unsettled_dec st t : Decision (unsettled st t).
Proof. unfold unsettled. apply _. Defined.

(** The state in which the loop of [onNewBlock] starts (line 47). *)
Definition record_parent (st : state) (blockHash parent : string) : state :=
  {| pendingTxs := pendingTxs st;
     settledTxs := settledTxs st;
     doneTxs := doneTxs st;
     newTxs := newTxs st;
     blockParents := <[blockHash := parent]> (blockParents st) |}.

(** What holds of the collections in every state the tracker reaches. *)
Record well_formed (st : state) : Prop := {
  wf_disjoint : separated st;
  wf_queue_nodup : NoDup (newTxs st);
  wf_queue_known : ∀ t, t ∈ newTxs st ↔ t ∈ known st;
  wf_block_known :
    ∀ t b, settledTxs st !! t = Some b → is_Some (blockParents st !! b);
}.

(** How the calls made so far relate to the collections. *)
Record reported (st : state) (tr : list call) : Prop := {
  rep_settled_nodup : NoDup (settled_ids tr);
  rep_settled :
    ∀ t, t ∈ settled_ids tr ↔ is_Some (settledTxs st !! t) ∨ t ∈ doneTxs st;
  rep_done_nodup : NoDup (done_ids tr);
  rep_done : ∀ t, t ∈ done_ids tr ↔ t ∈ doneTxs st;
  rep_order :
    ∀ tr1 t o tr2, tr = tr1 ++ OnTxDone t o :: tr2 → t ∈ settled_ids tr1;
}.

(** Both invariants together, along a whole run. *)
Definition consistent (st : state) (tr : list call) : Prop :=
  well_formed st ∧ reported st tr.

(** Every query of the oracle is paid for by a notification. *)
Definition queries_paired (tr : list call) : Prop :=
  ∀ b t,
    occurrences (IsTxValid b t) tr ≤ times_settled t tr + times_done t tr ∧
    occurrences (IsTxSuccessful b t) tr ≤ times_settled t tr + times_done t tr.

(** Every call of [onTxDone] comes right after the queries that build
    its second argument. *)
Definition done_queried (api : API) (tr : list call) : Prop :=
  ∀ tr1 t o tr2,
    tr = tr1 ++ OnTxDone t o :: tr2 →
    ∃ b tr0, tr1 = tr0 ++ oracle_calls api b t ∧ o = outcome_of api b t.

(** The calls one iteration of the loop of [onNewBlock] makes for a
    transaction it settles in [blockHash] (lines 53-73). *)
Definition settle_calls (api : API) (blockHash tx : string) : list call :=
  oracle_calls api blockHash tx ++ [OnTxSettled tx (outcome_of api blockHash tx)].

(** The calls one iteration of the loop of [onFinalized] makes for a
    transaction settled in [blockHash] (lines 105-118). *)
Definition done_calls (api : API) (blockHash tx : string) : list call :=
  oracle_calls api blockHash tx ++ [OnTxDone tx (outcome_of api blockHash tx)].

(** The blocks whose body was fetched, in call order. *)
Definition fetched_of (c : call) : option string :=
  match c with GetBody b => Some b | _ => None end.

Definition fetched (tr : list call) : list string := omap fetched_of tr.

(** The blocks announced by a sequence of events, in order, and the
    parent links these announcements leave behind. *)
Definition announced_block (e : event) : option string :=
  match e with NewBlock blockHash _ => Some blockHash | _ => None end.

Definition announce (parents : gmap string string) (e : event)
    : gmap string string :=
  match e with
  | NewBlock blockHash parent => <[blockHash := parent]> parents
  | _ => parents
  end.

Definition announced_links (events : list event) : gmap string string :=
  foldl announce ∅ events.

(** ** Lists and traces *)

Section ListFacts.
Context {A : Type}.

(** Where an element of a concatenation sits. *)
Lemma app_eq_middle (l1 l2 k1 k2 : list A) (x : A) :
  l1 ++ l2 = k1 ++ x :: k2 →
  (∃ k, l1 = k1 ++ x :: k ∧ k2 = k ++ l2) ∨
  (∃ k, k1 = l1 ++ k ∧ l2 = k ++ x :: k2).
Proof.
  revert k1. induction l1 as [|y l1 IH]; intros k1 Heq; simpl in *.
  - right. exists k1. done.
  - destruct k1 as [|z k1]; simpl in *; injection Heq as -> Heq.
    + left. by exists l1.
    + destruct (IH _ Heq) as [(k & -> & ->)|(k & -> & ->)].
      * left. by exists k.
      * right. by exists k.
Qed.

Lemma omap_split {B} (f : A → option B) (l : list A) k1 (y : B) k2 :
  omap f l = k1 ++ y :: k2 →
  ∃ l1 x l2, l = l1 ++ x :: l2 ∧ f x = Some y
             ∧ omap f l1 = k1 ∧ omap f l2 = k2.
Proof.
  revert k1. induction l as [|x l IH]; intros k1 Heq; simpl in *.
  - by destruct k1.
  - destruct (f x) as [z|] eqn:Hfx.
    + destruct k1 as [|z' k1]; simpl in *; injection Heq as -> Heq.
      * exists [], x, l. done.
      * destruct (IH _ Heq) as (l1 & x' & l2 & -> & ? & ? & ?).
        exists (x :: l1), x', l2. simpl. rewrite Hfx. by simplify_eq.
    + destruct (IH _ Heq) as (l1 & x' & l2 & -> & ? & ? & ?).
      exists (x :: l1), x', l2. simpl. rewrite Hfx. done.
Qed.

Lemma NoDup_omap_count {B} `{EqDecision B} (f : A → option B) (l : list A) (y : B) :
  NoDup (omap f l) → length (filter (λ x, f x = Some y) l) ≤ 1.
Proof.
  induction l as [|x l IH]; simpl; [lia|].
  rewrite filter_cons. destruct (f x) as [z|] eqn:Hfx.
  - rewrite NoDup_cons. intros [Hz Hnd]. case_decide; [|auto].
    simplify_eq. simpl.
    assert (filter (λ x, f x = Some y) l = []) as ->; [|simpl; lia].
    destruct (filter _ l) as [|x' ?] eqn:Hf; [done|].
    assert (x' ∈ filter (λ x, f x = Some y) l) as Hin
      by (rewrite Hf; left).
    apply list_elem_of_filter in Hin as [? ?].
    destruct Hz. apply list_elem_of_omap. eauto.
  - intros Hnd. case_decide; [done|auto].
Qed.
End ListFacts.

Lemma Some_pair_inv {A B} (p : A * B) (a : A) (b : B) :
  Some p = Some (a, b) → a = p.1 ∧ b = p.2.
Proof. intros [= ->]. done. Qed.

Lemma fresh_ext seen seen' l :
  (∀ x, x ∈ seen ↔ x ∈ seen') → fresh seen l = fresh seen' l.
Proof.
  revert seen seen'. induction l as [|x l IH]; intros seen seen' H; simpl; [done|].
  destruct (decide (x ∈ seen)), (decide (x ∈ seen')); try (by apply IH); try naive_solver.
  f_equal. apply IH. set_solver.
Qed.

Lemma fresh_app seen l1 l2 :
  fresh seen (l1 ++ l2) = fresh seen l1 ++ fresh (seen ∪ list_to_set l1) l2.
Proof.
  revert seen. induction l1 as [|x l1 IH]; intros seen; simpl.
  - apply fresh_ext. set_solver.
  - destruct (decide (x ∈ seen)).
    + rewrite IH. f_equal. apply fresh_ext. set_solver.
    + simpl. rewrite IH. do 2 f_equal. apply fresh_ext. set_solver.
Qed.

Lemma elem_of_fresh seen l x : x ∈ fresh seen l ↔ x ∈ l ∧ x ∉ seen.
Proof.
  revert seen. induction l as [|y l IH]; intros seen; simpl.
  - set_solver.
  - destruct (decide (y ∈ seen)).
    + rewrite IH. set_solver.
    + rewrite !elem_of_cons, IH. destruct (decide (x = y)); set_solver.
Qed.

Lemma NoDup_fresh seen l : NoDup (fresh seen l).
Proof.
  revert seen. induction l as [|y l IH]; intros seen; simpl.
  - constructor.
  - destruct (decide (y ∈ seen)); [apply IH|].
    apply NoDup_cons. split; [|apply IH].
    rewrite elem_of_fresh. set_solver.
Qed.

Lemma fresh_seen_twice seen l :
  fresh (seen ∪ list_to_set (fresh seen l)) l = [].
Proof.
  destruct (fresh _ l) as [|x ?] eqn:Hf; [done|].
  assert (x ∈ fresh (seen ∪ list_to_set (fresh seen l)) l) as Hin
    by (rewrite Hf; left).
  apply elem_of_fresh in Hin as [Hl Hn].
  destruct Hn. destruct (decide (x ∈ seen)); [set_solver|].
  apply elem_of_union_r, elem_of_list_to_set, elem_of_fresh. done.
Qed.

Lemma list_to_set_fresh seen l :
  seen ∪ list_to_set (fresh seen l) = seen ∪ list_to_set l.
Proof.
  apply set_eq. intros x.
  rewrite !elem_of_union, !elem_of_list_to_set, elem_of_fresh.
  destruct (decide (x ∈ seen)); naive_solver.
Qed.

(** ** Loops *)

Section Loops.
Context {A : Type} (body : state → A → state * list call).

Lemma for_each_cons st x l :
  for_each body st (x :: l) =
    ((for_each body (body st x).1 l).1,
     (body st x).2 ++ (for_each body (body st x).1 l).2).
Proof.
  simpl. destruct (body st x) as [st1 tr1]. simpl.
  by destruct (for_each body st1 l).
Qed.

Lemma for_each_app st l1 l2 :
  for_each body st (l1 ++ l2) =
    ((for_each body (for_each body st l1).1 l2).1,
     (for_each body st l1).2 ++ (for_each body (for_each body st l1).1 l2).2).
Proof.
  revert st. induction l1 as [|x l1 IH]; intros st.
  - simpl. by destruct (for_each body st l2).
  - rewrite <- app_comm_cons, !for_each_cons, IH. simpl.
    by rewrite app_assoc.
Qed.

(** A property of the state kept by every iteration is kept by the loop. *)
Lemma for_each_state (I : state → Prop) l st :
  (∀ st x, x ∈ l → I st → I (body st x).1) →
  I st → I (for_each body st l).1.
Proof.
  revert st. induction l as [|x l IH]; intros st Hstep Hst; [done|].
  rewrite for_each_cons. simpl. apply IH.
  - intros st' y Hy. apply Hstep. by right.
  - apply Hstep; [left|done].
Qed.

(** A property of traces that holds of the empty trace, of each
    iteration and of concatenations holds of the loop. *)
Lemma for_each_trace (P : list call → Prop) l st :
  P [] → (∀ a b, P a → P b → P (a ++ b)) →
  (∀ st x, P (body st x).2) →
  P (for_each body st l).2.
Proof.
  intros Hnil Happ Hstep. revert st.
  induction l as [|x l IH]; intros st; [done|].
  rewrite for_each_cons. simpl. by apply Happ.
Qed.

(** An invariant on the state, the trace so far and the rest of the array. *)
Lemma for_each_inv (I : state → list call → list A → Prop) l st :
  I st [] l →
  (∀ st tr x rest,
      I st tr (x :: rest) → I (body st x).1 (tr ++ (body st x).2) rest) →
  I (for_each body st l).1 (for_each body st l).2 [].
Proof.
  intros Hst Hstep.
  enough (∀ l st tr, I st tr l →
            I (for_each body st l).1 (tr ++ (for_each body st l).2) [])
    as Hgen by apply (Hgen l st [] Hst).
  clear l st Hst. induction l as [|x l IH]; intros st tr Hst.
  - simpl. by rewrite app_nil_r.
  - rewrite for_each_cons. simpl. rewrite app_assoc. apply IH, Hstep, Hst.
Qed.
End Loops.

(** ** The ancestry walk *)

Lemma ancestor_nonempty parents b a : ancestor parents b a → a ≠ "" ∧ b ≠ "".
Proof. induction 1; naive_solver. Qed.

Lemma walk_more_fuel fuel fuel' parents current acc fin :
  walk fuel parents current acc = Some fin → fuel ≤ fuel' →
  walk fuel' parents current acc = Some fin.
Proof.
  revert fuel' current acc.
  induction fuel as [|fuel IH]; intros fuel' current acc Hw Hle; [done|].
  destruct fuel' as [|fuel']; [lia|]. simpl in *.
  destruct (decide (current = "")); [done|]. apply IH; [done|lia].
Qed.

(** What the walk collects: the blocks it started with and the blocks
    it visits. *)
Lemma walk_collects fuel parents current acc fin :
  walk fuel parents current acc = Some fin →
  ∀ a, a ∈ fin ↔ a ∈ acc ∨ ancestor parents current a.
Proof.
  revert current acc.
  induction fuel as [|fuel IH]; intros current acc Hw a; [done|].
  simpl in Hw. destruct (decide (current = "")) as [->|Hne].
  - simplify_eq. split; [auto|].
    intros [?|Ha]; [done|]. by apply ancestor_nonempty in Ha as [_ ?].
  - rewrite (IH _ _ Hw a), elem_of_union, elem_of_singleton. split.
    + intros [[->|?]|?]; [right; by constructor|by left|].
      right. by apply ancestor_step.
    + intros [?|Ha]; [auto|]. inversion Ha; subst; auto.
Qed.

Lemma walk_reaches_root fuel parents current acc fin :
  walk fuel parents current acc = Some fin → reaches_root parents current.
Proof.
  revert current acc.
  induction fuel as [|fuel IH]; intros current acc Hw; [done|].
  simpl in Hw. destruct (decide (current = "")) as [->|Hne].
  - constructor.
  - apply reaches_root_step; [done|]. by eapply IH.
Qed.

Lemma reaches_root_walk parents current :
  reaches_root parents current →
  ∃ fuel, ∀ acc, is_Some (walk fuel parents current acc).
Proof.
  induction 1 as [|b Hne _ [fuel IH]].
  - exists 1. intros acc. simpl. eauto.
  - exists (S fuel). intros acc. simpl.
    destruct (decide (b = "")); [done|]. apply IH.
Qed.

(** The last block visited has no recorded parent, or an empty one. *)
Lemma walk_ends_at_root fuel parents current acc fin :
  walk fuel parents current acc = Some fin → current ≠ "" →
  ∃ root, ancestor parents current root ∧ get_or_empty parents root = "".
Proof.
  revert current acc.
  induction fuel as [|fuel IH]; intros current acc Hw Hne; [done|].
  simpl in Hw. destruct (decide (current = "")); [done|].
  destruct (decide (get_or_empty parents current = "")) as [Hp|Hp].
  - exists current. split; [by constructor|done].
  - destruct (IH _ _ Hw Hp) as (root & ? & ?).
    exists root. split; [by apply ancestor_step|done].
Qed.

(** A walk that can reach a block lying on a cycle has no end. *)
Lemma cycle_no_root parents c :
  on_cycle parents c →
  ∀ b, ancestor parents b c → ¬ reaches_root parents b.
Proof.
  intros Hc b Hb Hr. induction Hr as [|b Hne _ IH].
  - by apply ancestor_nonempty in Hb as [_ ?].
  - inversion Hb; subst; auto.
Qed.

Lemma walk_cycle_diverges parents c b :
  on_cycle parents c → ancestor parents b c →
  ∀ fuel acc, walk fuel parents b acc = None.
Proof.
  intros Hc Hb fuel acc.
  destruct (walk fuel parents b acc) eqn:Hw; [|done].
  destruct (cycle_no_root _ _ Hc _ Hb). by eapply walk_reaches_root.
Qed.

(** Heights that decrease along the links bound the walk. *)
Lemma links_decrease_reaches_root height parents b :
  links_decrease height parents → reaches_root parents b.
Proof.
  intros Hdec.
  enough (∀ n b, height b < n → reaches_root parents b) as Hgen
    by (apply (Hgen (S (height b))); lia).
  clear b. induction n as [|n IH]; intros b Hlt; [lia|].
  destruct (decide (b = "")) as [->|Hne]; [constructor|].
  apply reaches_root_step; [done|].
  unfold get_or_empty. destruct (parents !! b) as [p|] eqn:Hp; simpl.
  - destruct (decide (p = "")) as [->|Hpne]; [constructor|].
    apply IH. specialize (Hdec b p Hp Hpne). simpl in Hdec. lia.
  - constructor.
Qed.

(** ** The loop of [onFinalized] in closed form *)

Section DoneLoop.
Variable api : API.
Variable D : gset string.

Lemma done_tx_state st x :
  pendingTxs (done_tx api D st x).1 = pendingTxs st ∧
  newTxs (done_tx api D st x).1 = newTxs st ∧
  blockParents (done_tx api D st x).1 = blockParents st ∧
  (∀ t, t ∈ doneTxs (done_tx api D st x).1 ↔
        t ∈ doneTxs st ∨ (t ∈ D ∧ t = x)) ∧
  (∀ t, settledTxs (done_tx api D st x).1 !! t =
        if decide (t ∈ D ∧ t = x) then None else settledTxs st !! t).
Proof.
  unfold done_tx, set_has. case_bool_decide as Hx; simpl.
  - repeat split; try done; [set_solver..|].
    intros t. destruct (decide (t = x)) as [->|Hne].
    + rewrite lookup_delete_eq. by rewrite decide_True.
    + rewrite lookup_delete_ne by done. rewrite decide_False; naive_solver.
  - repeat split; try done; [set_solver..|].
    intros t. rewrite decide_False; naive_solver.
Qed.

Lemma done_loop_state l st :
  pendingTxs (for_each (done_tx api D) st l).1 = pendingTxs st ∧
  newTxs (for_each (done_tx api D) st l).1 = newTxs st ∧
  blockParents (for_each (done_tx api D) st l).1 = blockParents st ∧
  (∀ t, t ∈ doneTxs (for_each (done_tx api D) st l).1 ↔
        t ∈ doneTxs st ∨ (t ∈ D ∧ t ∈ l)) ∧
  (∀ t, settledTxs (for_each (done_tx api D) st l).1 !! t =
        if decide (t ∈ D ∧ t ∈ l) then None else settledTxs st !! t).
Proof.
  revert st. induction l as [|x l IH]; intros st.
  - simpl. repeat split; try done; [set_solver..|].
    intros t. rewrite decide_False; [done|]. set_solver.
  - rewrite for_each_cons. simpl.
    destruct (IH (done_tx api D st x).1) as (Hp & Hq & Hb & Hd & Hs).
    destruct (done_tx_state st x) as (Hp1 & Hq1 & Hb1 & Hd1 & Hs1).
    rewrite Hp, Hq, Hb. repeat split; try done.
    + rewrite Hd, Hd1. set_solver.
    + rewrite Hd, Hd1. set_solver.
    + intros t. rewrite Hs, Hs1.
      repeat case_decide; try done; set_solver.
Qed.

Lemma done_loop_ids l st :
  done_ids (for_each (done_tx api D) st l).2 = filter (λ t, t ∈ D) l ∧
  settled_ids (for_each (done_tx api D) st l).2 = [].
Proof.
  revert st. induction l as [|x l IH]; intros st; [done|].
  rewrite for_each_cons. simpl. unfold done_ids, settled_ids in *.
  rewrite !omap_app, filter_cons.
  destruct (IH (done_tx api D st x).1) as [-> ->].
  unfold done_tx, set_has, oracle_calls.
  case_bool_decide; [rewrite decide_True by done|rewrite decide_False by done];
    simpl; [|done].
  by destruct (isTxValid api _ x).
Qed.

(** The call made for a transaction of [D] carries the block that
    [settledTxs] held for it when the loop started. *)
Lemma done_loop_call l st t :
  t ∈ l → t ∈ D →
  OnTxDone t (outcome_of api (get_or_empty (settledTxs st) t) t)
    ∈ (for_each (done_tx api D) st l).2.
Proof.
  revert st. induction l as [|x l IH]; intros st Hl HD.
  - by apply elem_of_nil in Hl.
  - rewrite for_each_cons. simpl. apply elem_of_app.
    destruct (decide (t = x)) as [->|Hne].
    + left. unfold done_tx, set_has.
      rewrite bool_decide_eq_true_2 by done. cbn [snd].
      apply elem_of_app. right. left.
    + right. apply elem_of_cons in Hl as [?|Hl]; [done|].
      assert (get_or_empty (settledTxs (done_tx api D st x).1) t
              = get_or_empty (settledTxs st) t) as <-; [|by apply IH].
      unfold done_tx, set_has, get_or_empty.
      case_bool_decide; simpl; [|done]. by rewrite lookup_delete_ne.
Qed.

Lemma done_loop_nothing l st :
  (∀ t, t ∈ l → t ∉ D) → for_each (done_tx api D) st l = (st, []).
Proof.
  revert st. induction l as [|x l IH]; intros st Hl; [done|].
  rewrite for_each_cons.
  assert (done_tx api D st x = (st, [])) as ->.
  { unfold done_tx, set_has. rewrite bool_decide_eq_false_2; [done|].
    apply Hl. left. }
  simpl. rewrite IH; [done|]. intros t Ht. apply Hl. by right.
Qed.
End DoneLoop.

(** ** The loop of [onNewBlock] in closed form *)

Lemma elem_of_known st t :
  t ∈ known st ↔
  t ∈ pendingTxs st ∨ is_Some (settledTxs st !! t) ∨ t ∈ doneTxs st.
Proof. unfold known. rewrite !elem_of_union, elem_of_dom. tauto. Qed.

Lemma map_has_true m k : map_has m k = true ↔ is_Some (m !! k).
Proof.
  unfold map_has.
  destruct (m !! k); split; intros H; try done; eauto; by destruct H.
Qed.

Section SettleLoop.
Variable api : API.
Variable blockHash : string.

Lemma settle_tx_skip st x :
  ¬ unsettled st x → settle_tx api blockHash st x = (st, []).
Proof.
  intros Hn. unfold settle_tx.
  destruct (map_has (settledTxs st) x || set_has (doneTxs st) x) eqn:Hg; [done|].
  destruct Hn. apply orb_false_iff in Hg as [Hm Hd]. split.
  - destruct (settledTxs st !! x) eqn:Hl; [|done].
    assert (map_has (settledTxs st) x = true) by (apply map_has_true; eauto).
    congruence.
  - unfold set_has in Hd. by apply bool_decide_eq_false in Hd.
Qed.

Lemma settle_tx_new st x :
  unsettled st x →
  settle_tx api blockHash st x =
    ({| pendingTxs := pendingTxs st ∖ {[x]};
        settledTxs := <[x := blockHash]> (settledTxs st);
        doneTxs := doneTxs st;
        newTxs := newTxs st ++ fresh (known st) [x];
        blockParents := blockParents st |},
     oracle_calls api blockHash x
       ++ [OnTxSettled x (outcome_of api blockHash x)]).
Proof.
  intros [Hs Hd]. unfold settle_tx.
  assert (map_has (settledTxs st) x = false) as ->.
  { unfold map_has. by rewrite Hs. }
  assert (set_has (doneTxs st) x = false) as ->.
  { unfold set_has. by apply bool_decide_eq_false. }
  simpl. do 2 f_equal. unfold set_has. case_bool_decide as Hp.
  - rewrite decide_True; [by rewrite app_nil_r|].
    apply elem_of_known. auto.
  - rewrite decide_False; [done|].
    rewrite elem_of_known. intros [?|[[? ?]|?]]; congruence.
Qed.

Lemma settle_tx_state st x :
  doneTxs (settle_tx api blockHash st x).1 = doneTxs st ∧
  blockParents (settle_tx api blockHash st x).1 = blockParents st ∧
  newTxs (settle_tx api blockHash st x).1
    = newTxs st ++ fresh (known st) [x] ∧
  (∀ t, settledTxs (settle_tx api blockHash st x).1 !! t =
        if decide (t = x ∧ unsettled st t) then Some blockHash
        else settledTxs st !! t) ∧
  (∀ t, t ∈ pendingTxs (settle_tx api blockHash st x).1 ↔
        t ∈ pendingTxs st ∧ ¬ (t = x ∧ unsettled st t)) ∧
  (∀ t, t ∈ known (settle_tx api blockHash st x).1 ↔ t ∈ known st ∨ t = x).
Proof.
  destruct (decide (unsettled st x)) as [Hu|Hu].
  - rewrite settle_tx_new by done. simpl. split_and!; try done.
    + intros t. destruct (decide (t = x)) as [->|Hne].
      * rewrite lookup_insert_eq. by rewrite decide_True.
      * rewrite lookup_insert_ne by done. rewrite decide_False; naive_solver.
    + intros t. rewrite elem_of_difference, elem_of_singleton. split.
      * intros [? ?]. split; [done|]. by intros [? _].
      * intros [? Hn]. split; [done|]. intros ->. by apply Hn.
    + intros t. rewrite (elem_of_known st t), elem_of_known. simpl.
      rewrite elem_of_difference, elem_of_singleton.
      destruct (decide (t = x)) as [->|Hne].
      * rewrite lookup_insert_eq. split; [auto|]. intros _. right. left. eauto.
      * rewrite lookup_insert_ne by done. tauto.
  - rewrite settle_tx_skip by done. simpl.
    assert (x ∈ known st) as Hk.
    { apply elem_of_known. unfold unsettled in Hu.
      destruct (settledTxs st !! x) eqn:Hl; [eauto|].
      right. right. destruct (decide (x ∈ doneTxs st)); naive_solver. }
    rewrite decide_True by done. rewrite app_nil_r.
    split_and!; try done.
    + intros t. rewrite decide_False; naive_solver.
    + naive_solver.
    + naive_solver.
Qed.

Lemma unsettled_settle_tx st x t :
  unsettled (settle_tx api blockHash st x).1 t ↔ unsettled st t ∧ t ≠ x.
Proof.
  destruct (settle_tx_state st x) as (Hd & _ & _ & Hs & _).
  unfold unsettled at 1. rewrite Hd, Hs. case_decide as Hc.
  - split; [by intros [? _]|]. intros [? ?]. naive_solver.
  - unfold unsettled. split; [|tauto].
    intros [? ?]. split; [done|]. intros ->. apply Hc. done.
Qed.

Lemma settle_loop_state l st :
  doneTxs (for_each (settle_tx api blockHash) st l).1 = doneTxs st ∧
  blockParents (for_each (settle_tx api blockHash) st l).1
    = blockParents st ∧
  newTxs (for_each (settle_tx api blockHash) st l).1
    = newTxs st ++ fresh (known st) l ∧
  (∀ t, settledTxs (for_each (settle_tx api blockHash) st l).1 !! t =
        if decide (t ∈ l ∧ unsettled st t) then Some blockHash
        else settledTxs st !! t) ∧
  (∀ t, t ∈ pendingTxs (for_each (settle_tx api blockHash) st l).1 ↔
        t ∈ pendingTxs st ∧ ¬ (t ∈ l ∧ unsettled st t)) ∧
  (∀ t, t ∈ known (for_each (settle_tx api blockHash) st l).1 ↔
        t ∈ known st ∨ t ∈ l).
Proof.
  revert st. induction l as [|x l IH]; intros st.
  - simpl. rewrite app_nil_r. split_and!; try done.
    + intros t. rewrite elem_of_nil. tauto.
    + intros t. rewrite elem_of_nil. tauto.
  - rewrite for_each_cons. cbn [fst snd].
    destruct (IH (settle_tx api blockHash st x).1)
      as (Hd & Hb & Hq & Hs & Hp & Hk).
    destruct (settle_tx_state st x) as (Hd1 & Hb1 & Hq1 & Hs1 & Hp1 & Hk1).
    rewrite Hd, Hb, Hq, Hd1, Hb1, Hq1. split_and!; try done.
    + rewrite <- app_assoc. f_equal.
      change (x :: l) with ([x] ++ l). rewrite fresh_app. f_equal.
      apply fresh_ext. intros t. rewrite Hk1. set_solver.
    + intros t. rewrite Hs, Hs1.
      pose proof (unsettled_settle_tx st x t) as Hu.
      pose proof (elem_of_cons l t x) as Hc.
      repeat case_decide; try done; exfalso; tauto.
    + intros t. rewrite Hp, Hp1.
      pose proof (unsettled_settle_tx st x t) as Hu.
      rewrite elem_of_cons. destruct (decide (t = x)); tauto.
    + intros t. rewrite Hk, Hk1. set_solver.
Qed.

Lemma settle_loop_ids l st :
  settled_ids (for_each (settle_tx api blockHash) st l).2
    = fresh (dom (settledTxs st) ∪ doneTxs st) l ∧
  done_ids (for_each (settle_tx api blockHash) st l).2 = [].
Proof.
  revert st. induction l as [|x l IH]; intros st; [done|].
  rewrite for_each_cons. cbn [fst snd]. unfold done_ids, settled_ids in *.
  rewrite !omap_app.
  destruct (IH (settle_tx api blockHash st x).1) as [-> ->].
  destruct (decide (unsettled st x)) as [Hu|Hu].
  - rewrite settle_tx_new by done. cbn [fst snd settledTxs doneTxs fresh].
    destruct Hu as [Hs Hd].
    rewrite decide_False
      by (rewrite elem_of_union, elem_of_dom, Hs; by intros [[? ?]|?]).
    unfold oracle_calls. split.
    + assert (omap settled_of
                ((IsTxValid blockHash x ::
                  (if isTxValid api blockHash x
                   then [IsTxSuccessful blockHash x] else []))
                 ++ [OnTxSettled x (outcome_of api blockHash x)]) = [x])
        as -> by (by destruct (isTxValid api blockHash x)).
      simpl. f_equal. apply fresh_ext. intros t.
      rewrite dom_insert. set_solver.
    + by destruct (isTxValid api blockHash x).
  - rewrite settle_tx_skip by done. cbn [fst snd fresh omap].
    rewrite decide_True; [done|].
    rewrite elem_of_union, elem_of_dom. unfold unsettled in Hu.
    destruct (settledTxs st !! x); [eauto|].
    destruct (decide (x ∈ doneTxs st)); [auto|]. naive_solver.
Qed.
End SettleLoop.

(** ** The handlers, unfolded *)

Lemma onNewBlock_unfold api st blockHash parent :
  onNewBlock api st blockHash parent =
    ((for_each (settle_tx api blockHash)
        (record_parent st blockHash parent) (getBody api blockHash)).1,
     GetBody blockHash ::
       (for_each (settle_tx api blockHash)
          (record_parent st blockHash parent) (getBody api blockHash)).2).
Proof.
  unfold onNewBlock, record_parent. by destruct (for_each _ _ _).
Qed.

Lemma elem_of_txs_to_done fin (settled : gmap string string) t :
  t ∈ txs_to_done fin settled ↔ ∃ b, settled !! t = Some b ∧ b ∈ fin.
Proof.
  unfold txs_to_done. rewrite elem_of_dom. split.
  - intros [b Hb]. apply map_lookup_filter_Some in Hb as [? ?]. eauto.
  - intros (b & ? & ?). exists b. by apply map_lookup_filter_Some.
Qed.

Lemma onNewTx_known st t :
  t ∈ known st → onNewTx st t = (st, []).
Proof.
  rewrite elem_of_known. intros Hk. unfold onNewTx, set_has.
  destruct Hk as [?|[Hs|?]].
  - by rewrite bool_decide_eq_true_2.
  - apply map_has_true in Hs. rewrite Hs. by rewrite andb_false_r.
  - rewrite (bool_decide_eq_true_2 (t ∈ doneTxs st)) by done.
    by rewrite andb_false_r.
Qed.

Lemma onNewTx_unknown st t :
  t ∉ known st →
  onNewTx st t =
    ({| pendingTxs := {[t]} ∪ pendingTxs st;
        settledTxs := settledTxs st;
        doneTxs := doneTxs st;
        newTxs := newTxs st ++ [t];
        blockParents := blockParents st |}, []).
Proof.
  rewrite elem_of_known. intros Hk. unfold onNewTx, set_has.
  rewrite !bool_decide_eq_false_2 by tauto.
  destruct (map_has (settledTxs st) t) eqn:Hm; [|done].
  apply map_has_true in Hm. tauto.
Qed.

(** ** Invariants of the tracker *)

Lemma well_formed_init : well_formed init.
Proof.
  split.
  - unfold separated. simpl. set_solver.
  - constructor.
  - intros t. rewrite elem_of_known. simpl. split.
    + by intros ?%elem_of_nil.
    + intros [?|[[? ?]|?]]; set_solver.
  - intros t b. simpl. by rewrite lookup_empty.
Qed.

Lemma reported_init : reported init [].
Proof.
  split; simpl; try constructor.
  - by intros ?%elem_of_nil.
  - intros [[? ?]|?]; set_solver.
  - by intros ?%elem_of_nil.
  - set_solver.
  - intros tr1 t o tr2 H. by destruct tr1.
Qed.

Lemma order_app tr chunk :
  (∀ tr1 t o tr2, tr = tr1 ++ OnTxDone t o :: tr2 → t ∈ settled_ids tr1) →
  (∀ t, t ∈ done_ids chunk → t ∈ settled_ids tr) →
  ∀ tr1 t o tr2,
    tr ++ chunk = tr1 ++ OnTxDone t o :: tr2 → t ∈ settled_ids tr1.
Proof.
  intros Htr Hchunk tr1 t o tr2 Heq.
  apply app_eq_middle in Heq as [(k & -> & _)|(k & -> & ->)].
  - by eapply Htr.
  - unfold settled_ids. rewrite omap_app. apply elem_of_app. left.
    apply Hchunk. unfold done_ids. rewrite omap_app. apply elem_of_app.
    right. left.
Qed.

Section Preservation.
Variable api : API.

Lemma disjoint_onNewBlock st blockHash parent :
  separated st →
  separated (onNewBlock api st blockHash parent).1.
Proof.
  intros (Hps & Hpd & Hds). rewrite onNewBlock_unfold. cbn [fst].
  destruct (settle_loop_state api blockHash (getBody api blockHash)
              (record_parent st blockHash parent))
    as (Hd & _ & _ & Hs & Hp & _).
  unfold separated. rewrite Hd. simpl. split_and!.
  - intros t [Ht Hn]%Hp. rewrite Hs, decide_False by done. by apply Hps.
  - intros t [Ht _]%Hp. by apply Hpd.
  - intros t Ht. rewrite Hs, decide_False; [by apply Hds|].
    intros [_ [_ ?]]. done.
Qed.

Lemma disjoint_onNewTx st t :
  separated st → separated (onNewTx st t).1.
Proof.
  intros (Hps & Hpd & Hds).
  destruct (decide (t ∈ known st)) as [Hk|Hk].
  - by rewrite onNewTx_known.
  - rewrite onNewTx_unknown by done. rewrite elem_of_known in Hk.
    unfold separated. simpl. split_and!; [| |done].
    + intros t' [Heq%elem_of_singleton|?]%elem_of_union; [|by apply Hps].
      subst t'. destruct (settledTxs st !! t) eqn:Hl; [|done].
      destruct Hk. eauto.
    + intros t' [Heq%elem_of_singleton|?]%elem_of_union; [|by apply Hpd].
      subst t'. tauto.
Qed.

Lemma disjoint_onFinalized fuel st blockHash st' tr :
  separated st →
  onFinalized api fuel st blockHash = Some (st', tr) →
  separated st'.
Proof.
  intros (Hps & Hpd & Hds). unfold onFinalized.
  destruct (walk _ _ _ _) as [fin|]; [|done]. intros [-> ->]%Some_pair_inv.
  destruct (done_loop_state api (txs_to_done fin (settledTxs st))
              (newTxs st) st) as (Hp & _ & _ & Hd & Hs).
  unfold separated. rewrite Hp. split_and!.
  - intros t Ht. rewrite Hs. case_decide; [done|by apply Hps].
  - intros t Ht. rewrite Hd. intros [?|[HD _]]; [by eapply Hpd|].
    apply elem_of_txs_to_done in HD as (b & Hb & _).
    rewrite (Hps t Ht) in Hb. done.
  - intros t Ht. rewrite Hs. case_decide; [done|].
    apply Hd in Ht as [?|?]; [by apply Hds|done].
Qed.

Lemma disjoint_handle fuel st e st' tr :
  separated st → handle api fuel st e = Some (st', tr) →
  separated st'.
Proof.
  intros Hst. destruct e as [b p|t|b]; simpl.
  - intros [-> ->]%Some_pair_inv.
    pose proof (disjoint_onNewBlock st b p Hst) as H.
    by destruct (onNewBlock api st b p).
  - intros [-> ->]%Some_pair_inv.
    pose proof (disjoint_onNewTx st t Hst) as H.
    by destruct (onNewTx st t).
  - by apply disjoint_onFinalized.
Qed.

Lemma well_formed_onNewBlock st blockHash parent :
  well_formed st → well_formed (onNewBlock api st blockHash parent).1.
Proof.
  intros [Hdis Hnd Hq Hbk]. split; [by apply disjoint_onNewBlock|..];
    rewrite onNewBlock_unfold; cbn [fst];
    destruct (settle_loop_state api blockHash (getBody api blockHash)
                (record_parent st blockHash parent))
      as (Hd & Hb & Hn & Hs & Hp & Hk).
  - rewrite Hn. simpl. apply NoDup_app. split_and!; [done| |apply NoDup_fresh].
    intros t Ht%Hq. rewrite elem_of_fresh. intros [_ Hf]. done.
  - intros t. rewrite Hn, Hk, elem_of_app, elem_of_fresh. simpl.
    change (known (record_parent st blockHash parent)) with (known st).
    rewrite Hq. destruct (decide (t ∈ known st)); tauto.
  - intros t b. rewrite Hs, Hb. simpl. case_decide.
    + intros [= <-]. rewrite lookup_insert_eq. eauto.
    + intros Hl%Hbk. destruct (decide (blockHash = b)) as [->|Hne].
      * rewrite lookup_insert_eq. eauto.
      * by rewrite lookup_insert_ne.
Qed.

Lemma well_formed_onNewTx st t :
  well_formed st → well_formed (onNewTx st t).1.
Proof.
  intros [Hdis Hnd Hq Hbk]. split; [by apply disjoint_onNewTx|..];
    (destruct (decide (t ∈ known st)) as [Hk|Hk];
     [by rewrite onNewTx_known|rewrite onNewTx_unknown by done]); simpl.
  - apply NoDup_app. split_and!; [done| |apply NoDup_singleton].
    intros t' Ht'%Hq ->%list_elem_of_singleton. done.
  - intros t'. rewrite elem_of_app, list_elem_of_singleton, Hq.
    rewrite !elem_of_known. simpl. rewrite elem_of_union, elem_of_singleton.
    tauto.
  - done.
Qed.

Lemma well_formed_onFinalized fuel st blockHash st' tr :
  well_formed st →
  onFinalized api fuel st blockHash = Some (st', tr) →
  well_formed st'.
Proof.
  intros [Hdis Hnd Hq Hbk] Hfin.
  split; [by eapply disjoint_onFinalized|..]; revert Hfin;
    unfold onFinalized; (destruct (walk _ _ _ _) as [fin|]; [|done]);
    intros [-> ->]%Some_pair_inv;
    destruct (done_loop_state api (txs_to_done fin (settledTxs st))
                (newTxs st) st) as (Hp & Hn & Hb & Hd & Hs).
  - by rewrite Hn.
  - intros t. rewrite Hn, Hq, !elem_of_known, Hp, Hd, Hs.
    case_decide as Hc.
    + destruct Hc as [HD Hl]. pose proof Hl as Hk.
      apply Hq in Hk. rewrite elem_of_known in Hk. tauto.
    + tauto.
  - intros t b. rewrite Hs, Hb. case_decide; [done|]. apply Hbk.
Qed.

Lemma well_formed_handle fuel st e st' tr :
  well_formed st → handle api fuel st e = Some (st', tr) → well_formed st'.
Proof.
  intros Hst. destruct e as [b p|t|b]; simpl.
  - intros [-> ->]%Some_pair_inv.
    pose proof (well_formed_onNewBlock st b p Hst) as H.
    by destruct (onNewBlock api st b p).
  - intros [-> ->]%Some_pair_inv.
    pose proof (well_formed_onNewTx st t Hst) as H.
    by destruct (onNewTx st t).
  - by apply well_formed_onFinalized.
Qed.
End Preservation.

Section Reports.
Variable api : API.

Lemma onNewBlock_ids st blockHash parent :
  settled_ids (onNewBlock api st blockHash parent).2
    = fresh (dom (settledTxs st) ∪ doneTxs st) (getBody api blockHash) ∧
  done_ids (onNewBlock api st blockHash parent).2 = [].
Proof.
  rewrite onNewBlock_unfold. cbn [snd].
  destruct (settle_loop_ids api blockHash (getBody api blockHash)
              (record_parent st blockHash parent)) as [Hs Hd].
  split; [exact Hs|exact Hd].
Qed.

Lemma onFinalized_ids fuel st blockHash st' tr :
  onFinalized api fuel st blockHash = Some (st', tr) →
  ∃ fin, walk fuel (blockParents st) blockHash ∅ = Some fin ∧
         done_ids tr
           = filter (λ t, t ∈ txs_to_done fin (settledTxs st)) (newTxs st) ∧
         settled_ids tr = [].
Proof.
  unfold onFinalized. destruct (walk _ _ _ _) as [fin|]; [|done].
  intros [-> ->]%Some_pair_inv. exists fin. split; [done|]. apply done_loop_ids.
Qed.

Lemma reported_onNewBlock st tr0 blockHash parent :
  reported st tr0 →
  reported (onNewBlock api st blockHash parent).1
           (tr0 ++ (onNewBlock api st blockHash parent).2).
Proof.
  intros [Hsn Hs Hdn Hd Ho].
  destruct (onNewBlock_ids st blockHash parent) as [Hids Hnone].
  assert (∀ t, is_Some (settledTxs (onNewBlock api st blockHash parent).1 !! t)
               ∨ t ∈ doneTxs (onNewBlock api st blockHash parent).1
             ↔ (is_Some (settledTxs st !! t) ∨ t ∈ doneTxs st)
               ∨ t ∈ getBody api blockHash) as Hstate.
  { intros t. rewrite onNewBlock_unfold. cbn [fst].
    destruct (settle_loop_state api blockHash (getBody api blockHash)
                (record_parent st blockHash parent))
      as (Hd' & _ & _ & Hs' & _ & _).
    rewrite Hd', Hs'. simpl. unfold unsettled. simpl.
    case_decide as Hc.
    - split; [tauto|]. intros _. left. eauto.
    - split; [tauto|]. intros [?|Hb]; [done|].
      destruct (settledTxs st !! t) eqn:Hl; [left; eauto|].
      right. destruct (decide (t ∈ doneTxs st)); [done|]. tauto. }
  assert (doneTxs (onNewBlock api st blockHash parent).1 = doneTxs st)
    as Hdone.
  { rewrite onNewBlock_unfold. cbn [fst].
    by destruct (settle_loop_state api blockHash (getBody api blockHash)
                   (record_parent st blockHash parent)) as (-> & _). }
  split.
  - unfold settled_ids in *. rewrite omap_app, Hids.
    apply NoDup_app. split_and!; [done| |apply NoDup_fresh].
    intros t Ht%Hs. rewrite elem_of_fresh, elem_of_union, elem_of_dom. tauto.
  - intros t. rewrite Hstate. unfold settled_ids in *.
    rewrite omap_app, elem_of_app, Hids, elem_of_fresh, Hs.
    rewrite elem_of_union, elem_of_dom.
    destruct (decide (t ∈ doneTxs st)); [tauto|].
    destruct (settledTxs st !! t) eqn:Hl.
    + split; intros _; left; left; eauto.
    + assert (¬ is_Some (@None string)) by (by intros [? ?]). tauto.
  - unfold done_ids in *. by rewrite omap_app, Hnone, app_nil_r.
  - intros t. rewrite Hdone. unfold done_ids in *.
    by rewrite omap_app, Hnone, app_nil_r.
  - apply order_app; [done|]. intros t. rewrite Hnone. by intros ?%elem_of_nil.
Qed.

Lemma reported_onNewTx st tr0 t :
  reported st tr0 → reported (onNewTx st t).1 (tr0 ++ (onNewTx st t).2).
Proof.
  intros Hr. destruct (decide (t ∈ known st)) as [Hk|Hk].
  - rewrite onNewTx_known by done. simpl. by rewrite app_nil_r.
  - rewrite onNewTx_unknown by done. simpl. rewrite app_nil_r.
    by destruct Hr.
Qed.

Lemma reported_onFinalized fuel st tr0 blockHash st' tr :
  well_formed st → reported st tr0 →
  onFinalized api fuel st blockHash = Some (st', tr) →
  reported st' (tr0 ++ tr).
Proof.
  intros [Hdis Hnd Hq Hbk] [Hsn Hs Hdn Hd Ho] Hfin.
  destruct (onFinalized_ids _ _ _ _ _ Hfin) as (fin & Hw & Hids & Hnone).
  revert Hfin. unfold onFinalized. rewrite Hw. intros [-> ->]%Some_pair_inv.
  set (D := txs_to_done fin (settledTxs st)) in *.
  destruct (done_loop_state api D (newTxs st) st)
    as (Hp' & Hn' & Hb' & Hd' & Hs').
  assert (∀ t, t ∈ D → is_Some (settledTxs st !! t) ∧ (t ∉ doneTxs st)
                       ∧ t ∈ newTxs st) as HD.
  { intros t (b & Hb & _)%elem_of_txs_to_done. split_and!; [eauto| |].
    - intros Hdone. destruct Hdis as (_ & _ & Hds).
      rewrite (Hds t Hdone) in Hb. done.
    - apply Hq, elem_of_known. right. left. eauto. }
  split.
  - unfold settled_ids in *. by rewrite omap_app, Hnone, app_nil_r.
  - intros t. unfold settled_ids in *.
    rewrite omap_app, Hnone, app_nil_r, Hs, Hd', Hs'.
    case_decide as Hc; [|tauto].
    destruct Hc as [HDt Hl]. destruct (HD t HDt) as (? & ? & _).
    split; [tauto|]. intros _. by left.
  - unfold done_ids in *. rewrite omap_app, Hids.
    apply NoDup_app. split_and!; [done| |by apply NoDup_filter].
    intros t Ht%Hd [HDt _]%list_elem_of_filter.
    destruct (HD t HDt) as (_ & ? & _). done.
  - intros t. unfold done_ids in *.
    rewrite omap_app, elem_of_app, Hids, list_elem_of_filter, Hd, Hd'. tauto.
  - apply order_app; [done|]. intros t. rewrite Hids.
    intros [HDt _]%list_elem_of_filter. apply Hs.
    destruct (HD t HDt) as (? & _). by left.
Qed.

Lemma consistent_handle fuel st tr0 e st' tr :
  consistent st tr0 → handle api fuel st e = Some (st', tr) →
  consistent st' (tr0 ++ tr).
Proof.
  intros [Hwf Hrep] He. split; [by eapply well_formed_handle|].
  destruct e as [b p|t|b]; simpl in He.
  - apply Some_pair_inv in He as [-> ->]. by apply reported_onNewBlock.
  - apply Some_pair_inv in He as [-> ->]. by apply reported_onNewTx.
  - by eapply reported_onFinalized.
Qed.

Lemma run_cons fuel st e events st' tr :
  run api fuel st (e :: events) = Some (st', tr) →
  ∃ st1 tr1 tr2,
    handle api fuel st e = Some (st1, tr1) ∧
    run api fuel st1 events = Some (st', tr2) ∧ tr = tr1 ++ tr2.
Proof.
  simpl. destruct (handle api fuel st e) as [[st1 tr1]|]; [|done].
  destruct (run api fuel st1 events) as [[st2 tr2]|] eqn:Hr; [|done].
  intros [= <- <-]. exists st1, tr1, tr2. by rewrite Hr.
Qed.

Lemma consistent_run_from fuel events st tr0 st' tr :
  consistent st tr0 → run api fuel st events = Some (st', tr) →
  consistent st' (tr0 ++ tr).
Proof.
  revert st tr0 tr. induction events as [|e events IH]; intros st tr0 tr Hc.
  - simpl. intros [= <- <-]. by rewrite app_nil_r.
  - intros (st1 & tr1 & tr2 & He & Hr & ->)%run_cons.
    rewrite app_assoc. eapply IH; [|done]. by eapply consistent_handle.
Qed.

Lemma consistent_run fuel events st tr :
  run api fuel init events = Some (st, tr) → consistent st tr.
Proof.
  intros Hr. change tr with ([] ++ tr).
  eapply consistent_run_from; [|done].
  split; [apply well_formed_init|apply reported_init].
Qed.
End Reports.

(** ** Runs *)

Section Runs.
Variable api : API.

Lemma separated_disjoint st : disjoint_sets st ↔ separated st.
Proof.
  unfold disjoint_sets, separated. rewrite !elem_of_disjoint. split.
  - intros (Hps & Hpd & Hsd). split_and!.
    + intros t Ht. apply not_elem_of_dom. intros ?. by apply (Hps t).
    + intros t Ht ?. by apply (Hpd t).
    + intros t Ht. apply not_elem_of_dom. intros ?. by apply (Hsd t).
  - intros (Hps & Hpd & Hsd). split_and!.
    + intros t Ht [b Hb]%elem_of_dom. rewrite (Hps t Ht) in Hb. done.
    + intros t Ht ?. by apply (Hpd t).
    + intros t [b Hb]%elem_of_dom Ht. rewrite (Hsd t Ht) in Hb. done.
Qed.

(** What was emitted is the trace of the events handled to the end. *)
Lemma emitted_run fuel events st :
  ∃ handled st',
    handled `prefix_of` events ∧
    run api fuel st handled = Some (st', emitted api fuel st events).
Proof.
  revert st. induction events as [|e events IH]; intros st.
  - exists [], st. done.
  - simpl. destruct (handle api fuel st e) as [[st1 tr1]|] eqn:He.
    + destruct (IH st1) as (handled & st' & Hpre & Hrun).
      exists (e :: handled), st'. split; [by apply prefix_cons|].
      simpl. by rewrite He, Hrun.
    + exists [], st. split; [apply prefix_nil|done].
Qed.

Lemma run_emitted fuel events st st' tr :
  run api fuel st events = Some (st', tr) → emitted api fuel st events = tr.
Proof.
  revert st tr. induction events as [|e events IH]; intros st tr.
  - by intros [= <- <-].
  - intros (st1 & tr1 & tr2 & He & Hr & ->)%run_cons.
    simpl. rewrite He. f_equal. by eapply IH.
Qed.

Lemma consistent_emitted fuel events :
  ∃ st, consistent st (emitted api fuel init events).
Proof.
  destruct (emitted_run fuel events init) as (handled & st & _ & Hrun).
  exists st. by eapply consistent_run.
Qed.

(** A property of traces that holds of each handler holds of a run. *)
Lemma handle_trace (P : list call → Prop) fuel st e st' tr :
  P [] → (∀ a b, P a → P b → P (a ++ b)) →
  (∀ b, P [GetBody b]) →
  (∀ b st x, P (settle_tx api b st x).2) →
  (∀ D st x, P (done_tx api D st x).2) →
  handle api fuel st e = Some (st', tr) → P tr.
Proof.
  intros Hnil Happ Hbody Hsettle Hdone.
  destruct e as [b p|t|b]; simpl.
  - intros [-> ->]%Some_pair_inv. rewrite onNewBlock_unfold. cbn [snd].
    apply (Happ [GetBody b]); [done|]. by apply for_each_trace.
  - intros [-> ->]%Some_pair_inv. unfold onNewTx. by case_match.
  - unfold onFinalized. destruct (walk _ _ _ _); [|done].
    intros [-> ->]%Some_pair_inv. by apply for_each_trace.
Qed.

Lemma emitted_trace (P : list call → Prop) fuel st events :
  P [] → (∀ a b, P a → P b → P (a ++ b)) →
  (∀ b, P [GetBody b]) →
  (∀ b st x, P (settle_tx api b st x).2) →
  (∀ D st x, P (done_tx api D st x).2) →
  P (emitted api fuel st events).
Proof.
  intros Hnil Happ Hbody Hsettle Hdone. revert st.
  induction events as [|e events IH]; intros st; [done|].
  simpl. destruct (handle api fuel st e) as [[st1 tr1]|] eqn:He; [|done].
  apply Happ; [|done]. by eapply handle_trace.
Qed.

(** One event: the queue grows by the identifiers not seen before. *)
Lemma handle_queue fuel st e st' tr :
  handle api fuel st e = Some (st', tr) →
  newTxs st' = newTxs st ++ fresh (known st) (seen_txs api e) ∧
  (∀ t, t ∈ known st' ↔ t ∈ known st ∨ t ∈ seen_txs api e).
Proof.
  destruct e as [b p|t|b]; simpl.
  - intros [-> ->]%Some_pair_inv. rewrite onNewBlock_unfold. cbn [fst].
    destruct (settle_loop_state api b (getBody api b) (record_parent st b p))
      as (_ & _ & Hn & _ & _ & Hk).
    split; [exact Hn|exact Hk].
  - intros [-> ->]%Some_pair_inv.
    destruct (decide (t ∈ known st)) as [Hk|Hk].
    + rewrite onNewTx_known by done. cbn [fst].
      rewrite app_nil_r. set_solver.
    + rewrite onNewTx_unknown by done. cbn [fst newTxs]. split; [done|].
      intros t'. rewrite (elem_of_known st t'), elem_of_known. simpl.
      rewrite elem_of_union, elem_of_singleton. set_solver.
  - unfold onFinalized. destruct (walk _ _ _ _) as [fin|]; [|done].
    intros [-> ->]%Some_pair_inv.
    destruct (done_loop_state api (txs_to_done fin (settledTxs st))
                (newTxs st) st) as (Hp & Hn & _ & Hd & Hs).
    rewrite Hn, app_nil_r. split; [done|].
    intros t. rewrite (elem_of_known st t), elem_of_known, Hp, Hd, Hs.
    case_decide as Hc.
    + destruct Hc as [HD Hl].
      pose proof HD as (b' & Hb' & _)%elem_of_txs_to_done. rewrite Hb'.
      split; intros _; [left; right; left; eauto|tauto].
    + rewrite elem_of_nil. tauto.
Qed.

Lemma run_queue fuel events st st' tr :
  run api fuel st events = Some (st', tr) →
  newTxs st' = newTxs st
               ++ fresh (known st) (concat (map (seen_txs api) events)).
Proof.
  revert st tr. induction events as [|e events IH]; intros st tr.
  - intros [= <- <-]. simpl. by rewrite app_nil_r.
  - intros (st1 & tr1 & tr2 & He & Hr & ->)%run_cons.
    destruct (handle_queue _ _ _ _ _ He) as [Hn Hk].
    rewrite (IH _ _ Hr), Hn. simpl. rewrite fresh_app, <- app_assoc.
    do 2 f_equal. apply fresh_ext. intros t.
    by rewrite Hk, elem_of_union, elem_of_list_to_set.
Qed.

(** The arrival queue lists the identifiers in first-seen order. *)
Lemma queue_first_seen fuel events st tr :
  run api fuel init events = Some (st, tr) →
  newTxs st = fresh ∅ (concat (map (seen_txs api) events)).
Proof.
  intros Hr. rewrite (run_queue _ _ _ _ _ Hr). simpl.
  apply fresh_ext. intros t. rewrite elem_of_known. simpl.
  rewrite lookup_empty, !elem_of_empty.
  split; [intros [[]|[[? ?]|[]]]; done|done].
Qed.
End Runs.

(** ** Notifications *)

Lemma settled_of_Some c t : settled_of c = Some t → ∃ o, c = OnTxSettled t o.
Proof. destruct c; simpl; intros [= ->]; eauto. Qed.

Lemma done_of_Some c t : done_of c = Some t → ∃ o, c = OnTxDone t o.
Proof. destruct c; simpl; intros [= ->]; eauto. Qed.

Lemma reported_once api fuel events t :
  times_settled t (emitted api fuel init events) ≤ 1 ∧
  times_done t (emitted api fuel init events) ≤ 1.
Proof.
  destruct (consistent_emitted api fuel events) as (st & _ & Hrep).
  destruct Hrep as [Hsn _ Hdn _ _]. split; by apply NoDup_omap_count.
Qed.

(** C1: whatever events arrive, a transaction is reported settled at
    most once and done at most once, and a call of [onTxDone] for it
    comes only after a call of [onTxSettled] for it. *)
Theorem notifications_at_most_once api fuel events t :
  times_settled t (emitted api fuel init events) ≤ 1 ∧
  times_done t (emitted api fuel init events) ≤ 1 ∧
  ∀ tr1 o tr2,
    emitted api fuel init events = tr1 ++ OnTxDone t o :: tr2 →
    ∃ o', OnTxSettled t o' ∈ tr1.
Proof.
  destruct (consistent_emitted api fuel events) as (st & _ & Hrep).
  destruct Hrep as [Hsn _ Hdn _ Ho]. split_and!.
  - by apply NoDup_omap_count.
  - by apply NoDup_omap_count.
  - intros tr1 o tr2 Heq. specialize (Ho _ _ _ _ Heq).
    apply list_elem_of_omap in Ho as (c & Hc & Hs).
    apply settled_of_Some in Hs as [o' ->]. eauto.
Qed.

Lemma notifications_at_most_once_demo :
  times_settled "t1" (emitted demo_api 4 init (demo_events ++ [Finalized "b2"])) ≤ 1 ∧
  times_done "t1" (emitted demo_api 4 init (demo_events ++ [Finalized "b2"])) ≤ 1 ∧
  ∃ o', OnTxSettled "t1" o'
          ∈ firstn 16 (emitted demo_api 4 init (demo_events ++ [Finalized "b2"])).
Proof.
  destruct (notifications_at_most_once demo_api 4
              (demo_events ++ [Finalized "b2"]) "t1") as (Hs & Hd & Ho).
  split_and!; [exact Hs|exact Hd|].
  apply (Ho _ (Valid "b2" true)
           (skipn 17 (emitted demo_api 4 init (demo_events ++ [Finalized "b2"])))).
  vm_compute. reflexivity.
Defined.

(** ** Order of the notifications *)

Lemma settled_ids_split tr k1 (A : string) k2 :
  settled_ids tr = k1 ++ A :: k2 →
  ∃ tr1 o tr2, tr = tr1 ++ OnTxSettled A o :: tr2
               ∧ settled_ids tr1 = k1 ∧ settled_ids tr2 = k2.
Proof.
  intros (tr1 & c & tr2 & -> & Hc & ? & ?)%omap_split.
  apply settled_of_Some in Hc as [o ->]. by exists tr1, o, tr2.
Qed.

Lemma done_ids_split tr k1 (A : string) k2 :
  done_ids tr = k1 ++ A :: k2 →
  ∃ tr1 o tr2, tr = tr1 ++ OnTxDone A o :: tr2
               ∧ done_ids tr1 = k1 ∧ done_ids tr2 = k2.
Proof.
  intros (tr1 & c & tr2 & -> & Hc & ? & ?)%omap_split.
  apply done_of_Some in Hc as [o ->]. by exists tr1, o, tr2.
Qed.

(** Cutting a list at the first occurrence of [A], when it is also cut
    at some occurrence of [A] that no [B] precedes. *)
Lemma first_occurrence_before (l1 l2 : list string) A B :
  B ∉ l1 →
  ∃ k1 k2, l1 ++ A :: l2 = k1 ++ A :: k2 ∧ (A ∉ k1) ∧ (B ∉ k1).
Proof.
  intros HB.
  destruct (list_elem_of_split_l (l1 ++ A :: l2) A) as (k1 & k2 & Heq & Hk1);
    [set_solver|].
  exists k1, k2. split_and!; [done..|].
  apply app_eq_middle in Heq as [(k & -> & _)|(k & -> & Hk)].
  - set_solver.
  - destruct k as [|y k]; [by rewrite app_nil_r|].
    simpl in Hk. injection Hk as <- _. set_solver.
Qed.

(** C2: the transactions that settle in one [NewBlock] event are
    reported in the order of the block body, and the transactions that
    become done in one [Finalized] event are reported in the order in
    which they were first seen. *)
Theorem callbacks_in_order api :
  (∀ fuel st blockHash parent st' tr l1 A l2 B,
      handle api fuel st (NewBlock blockHash parent) = Some (st', tr) →
      getBody api blockHash = l1 ++ A :: l2 → B ∉ l1 → A ≠ B →
      A ∈ settled_ids tr → B ∈ settled_ids tr →
      ∃ tr1 o tr2, tr = tr1 ++ OnTxSettled A o :: tr2
                   ∧ (B ∉ settled_ids tr1) ∧ B ∈ settled_ids tr2) ∧
  (∀ fuel events st tr0 blockHash st' tr q1 A q2 B,
      run api fuel init events = Some (st, tr0) →
      handle api fuel st (Finalized blockHash) = Some (st', tr) →
      fresh ∅ (concat (map (seen_txs api) events)) = q1 ++ A :: q2 →
      B ∈ q2 →
      A ∈ done_ids tr → B ∈ done_ids tr →
      ∃ tr1 o tr2, tr = tr1 ++ OnTxDone A o :: tr2
                   ∧ (B ∉ done_ids tr1) ∧ B ∈ done_ids tr2).
Proof.
  split.
  - intros fuel st b p st' tr l1 A l2 B He Hbody HB Hne HA HBin.
    simpl in He. apply Some_pair_inv in He as [-> ->].
    destruct (onNewBlock_ids api st b p) as [Hids _].
    set (tr := (onNewBlock api st b p).2) in *.
    set (seen := dom (settledTxs st) ∪ doneTxs st) in *.
    destruct (first_occurrence_before l1 l2 A B HB) as (k1 & k2 & Hk & HAk & HBk).
    assert (A ∉ seen) as HAseen.
    { rewrite Hids in HA. by apply elem_of_fresh in HA as [_ ?]. }
    rewrite Hbody, Hk, fresh_app in Hids. simpl in Hids. rewrite decide_False in Hids
      by (rewrite elem_of_union, elem_of_list_to_set; tauto).
    destruct (settled_ids_split _ _ _ _ Hids) as (tr1 & o & tr2 & Htr & H1 & H2).
    exists tr1, o, tr2. split_and!; [done| |].
    + rewrite H1, elem_of_fresh. tauto.
    + rewrite Hids in HBin. rewrite <- H2 in HBin.
      apply elem_of_app in HBin as [HBin|HBin].
      * apply elem_of_fresh in HBin as [? _]. done.
      * apply elem_of_cons in HBin as [?|?]; [congruence|done].
  - intros fuel events st tr0 b st' tr q1 A q2 B Hrun He Hq HB HA HBin.
    simpl in He.
    destruct (onFinalized_ids _ _ _ _ _ _ He) as (fin & _ & Hids & _).
    rewrite (queue_first_seen _ _ _ _ _ Hrun), Hq in Hids.
    pose proof (NoDup_fresh ∅ (concat (map (seen_txs api) events))) as Hnd.
    rewrite Hq in Hnd. apply NoDup_app in Hnd as (_ & Hnd & _).
    assert (∀ x, x ∈ done_ids tr → x ∈ txs_to_done fin (settledTxs st)) as HD.
    { intros x. rewrite Hids. by intros [? _]%list_elem_of_filter. }
    rewrite filter_app, filter_cons_True in Hids by auto.
    destruct (done_ids_split _ _ _ _ Hids) as (tr1 & o & tr2 & Htr & H1 & H2).
    exists tr1, o, tr2. split_and!; [done| |].
    + rewrite H1. intros [_ HBq]%list_elem_of_filter.
      apply (Hnd B HBq). by right.
    + rewrite H2. apply list_elem_of_filter. auto.
Qed.

Lemma callbacks_in_order_demo :
  (∃ tr1 o tr2,
      trace_of (handle demo_api 4
                  (state_of (run demo_api 4 init
                               [NewTransaction "t1"; NewTransaction "t2"]))
                  (NewBlock "b2" "b1"))
        = tr1 ++ OnTxSettled "t1" o :: tr2
      ∧ ("t3" ∉ settled_ids tr1) ∧ "t3" ∈ settled_ids tr2) ∧
  (∃ tr1 o tr2,
      trace_of (handle demo_api 4 (state_of (run demo_api 4 init demo_events))
                  (Finalized "b2"))
        = tr1 ++ OnTxDone "t1" o :: tr2
      ∧ ("t2" ∉ done_ids tr1) ∧ "t2" ∈ done_ids tr2).
Proof.
  destruct (callbacks_in_order demo_api) as [Hsettled Hdone]. split.
  - apply (Hsettled 4
             (state_of (run demo_api 4 init
                          [NewTransaction "t1"; NewTransaction "t2"]))
             "b2" "b1"
             (state_of (handle demo_api 4
                (state_of (run demo_api 4 init
                             [NewTransaction "t1"; NewTransaction "t2"]))
                (NewBlock "b2" "b1")))
             _ [] "t1" ["t3"] "t3").
    + vm_compute. reflexivity.
    + reflexivity.
    + apply not_elem_of_nil.
    + discriminate.
    + vm_compute. left.
    + vm_compute. right. left.
  - apply (Hdone 4 demo_events
             (state_of (run demo_api 4 init demo_events))
             (trace_of (run demo_api 4 init demo_events)) "b2"
             (state_of (handle demo_api 4
                (state_of (run demo_api 4 init demo_events)) (Finalized "b2")))
             _ [] "t1" ["t2"; "t4"; "t3"] "t2").
    + vm_compute. reflexivity.
    + vm_compute. reflexivity.
    + vm_compute. reflexivity.
    + left.
    + vm_compute. left.
    + vm_compute. right. left.
Defined.

(** ** Oracle queries *)

Section Queries.
Variable api : API.

Lemma queries_paired_app a b :
  queries_paired a → queries_paired b → queries_paired (a ++ b).
Proof.
  intros Ha Hb blk t. destruct (Ha blk t), (Hb blk t).
  unfold occurrences, times_settled, times_done in *.
  rewrite !filter_app, !length_app. lia.
Qed.

Lemma queries_paired_chunk blk t c :
  (settled_of c = Some t ∨ done_of c = Some t) →
  queries_paired (oracle_calls api blk t ++ [c]).
Proof.
  intros Hc b' t'.
  assert (occurrences (IsTxValid b' t') [c] = 0
          ∧ occurrences (IsTxSuccessful b' t') [c] = 0
          ∧ times_settled t' [c] + times_done t' [c]
            = if decide (t = t') then 1 else 0) as (Hv & Hs & Hn).
  { unfold occurrences, times_settled, times_done.
    rewrite !filter_cons, !filter_nil.
    destruct Hc as [[o ->]%settled_of_Some|[o ->]%done_of_Some]; simpl;
      repeat case_decide; simplify_eq; done. }
  assert (occurrences (IsTxValid b' t') (oracle_calls api blk t)
            ≤ (if decide (t = t') then 1 else 0)
          ∧ occurrences (IsTxSuccessful b' t') (oracle_calls api blk t)
            ≤ (if decide (t = t') then 1 else 0)) as (Hv' & Hs').
  { unfold occurrences, oracle_calls.
    destruct (isTxValid api blk t);
      rewrite !filter_cons, !filter_nil;
      repeat case_decide; simplify_eq; simpl; lia. }
  unfold occurrences, times_settled, times_done in *.
  rewrite !filter_app, !length_app. lia.
Qed.

Lemma queries_paired_settle_tx b st x :
  queries_paired (settle_tx api b st x).2.
Proof.
  unfold settle_tx. case_match; [by intros ??|]. cbn [snd].
  apply queries_paired_chunk. by left.
Qed.

Lemma queries_paired_done_tx D st x :
  queries_paired (done_tx api D st x).2.
Proof.
  unfold done_tx. case_match; [|by intros ??]. cbn [snd].
  apply queries_paired_chunk. by right.
Qed.

Lemma done_queried_app a b :
  done_queried api a → done_queried api b → done_queried api (a ++ b).
Proof.
  intros Ha Hb tr1 t o tr2 Heq.
  apply app_eq_middle in Heq as [(k & -> & _)|(k & -> & ->)].
  - by eapply Ha.
  - destruct (Hb k t o tr2 eq_refl) as (blk & tr0 & -> & ->).
    exists blk, (a ++ tr0). by rewrite app_assoc.
Qed.

Lemma oracle_calls_no_done blk t t' o :
  OnTxDone t' o ∉ oracle_calls api blk t.
Proof.
  unfold oracle_calls. destruct (isTxValid api blk t); set_solver.
Qed.

Lemma done_queried_settle_tx b st x :
  done_queried api (settle_tx api b st x).2.
Proof.
  unfold settle_tx. case_match; cbn [snd]; intros tr1 t o tr2 Heq.
  - by destruct tr1.
  - assert (OnTxDone t o ∈ oracle_calls api b x
                             ++ [OnTxSettled x (outcome_of api b x)]) as Hin
      by (rewrite Heq; set_solver).
    apply elem_of_app in Hin as [Hin|Hin%list_elem_of_singleton]; [|done].
    by apply oracle_calls_no_done in Hin.
Qed.

Lemma done_queried_done_tx D st x :
  done_queried api (done_tx api D st x).2.
Proof.
  unfold done_tx. case_match; cbn [snd]; intros tr1 t o tr2 Heq.
  - apply app_eq_middle in Heq as [(k & Hk & _)|(k & -> & Hk)].
    + exfalso. apply (oracle_calls_no_done
                        (get_or_empty (settledTxs st) x) x t o).
      rewrite Hk. set_solver.
    + destruct k as [|c k]; simpl in Hk.
      * injection Hk as <- <- <-. eexists _, []. by rewrite app_nil_r.
      * injection Hk as _ Hk. by destruct k.
  - by destruct tr1.
Qed.
End Queries.

(** C3, as the code has it: the outcome of a transaction in its
    settlement block is asked of the oracle at most twice, once when the
    transaction settles and once more in the [Finalized] handler, which
    queries the oracle again for the argument of [onTxDone]. *)
Theorem oracle_queried_at_most_twice api fuel events :
  (∀ b t,
      occurrences (IsTxValid b t) (emitted api fuel init events) ≤ 2 ∧
      occurrences (IsTxSuccessful b t) (emitted api fuel init events) ≤ 2) ∧
  (∀ tr1 t o tr2,
      emitted api fuel init events = tr1 ++ OnTxDone t o :: tr2 →
      ∃ b tr0, tr1 = tr0 ++ oracle_calls api b t ∧ o = outcome_of api b t).
Proof.
  split.
  - intros b t.
    destruct (reported_once api fuel events t) as [Hs Hd].
    assert (queries_paired (emitted api fuel init events)) as Hp.
    { apply emitted_trace.
      - by intros ??.
      - apply queries_paired_app.
      - intros b' b'' t'. unfold occurrences, times_settled, times_done.
        rewrite !filter_cons, !filter_nil. by repeat case_decide.
      - apply queries_paired_settle_tx.
      - apply queries_paired_done_tx. }
    destruct (Hp b t). lia.
  - apply emitted_trace.
    + intros tr1 t o tr2 Heq. by destruct tr1.
    + apply done_queried_app.
    + intros b tr1 t o tr2 Heq. destruct tr1 as [|? [|]]; done.
    + apply done_queried_settle_tx.
    + apply done_queried_done_tx.
Qed.

(** One block holding [t2], then its finalization: [isTxValid] is asked
    twice about the pair ([b1], [t2]). *)
Lemma oracle_queried_again_on_finalized :
  ¬ (occurrences (IsTxValid "b1" "t2")
       (emitted demo_api 3 init [NewBlock "b1" "genesis"; Finalized "b1"]) ≤ 1).
Proof.
  assert (occurrences (IsTxValid "b1" "t2")
            (emitted demo_api 3 init [NewBlock "b1" "genesis"; Finalized "b1"])
          = 2) as -> by (vm_compute; reflexivity).
  lia.
Qed.

Example finalized_handler_queries :
  trace_of (handle demo_api 3
              (state_of (run demo_api 3 init [NewBlock "b1" "genesis"]))
              (Finalized "b1"))
  = [IsTxValid "b1" "t2"; IsTxSuccessful "b1" "t2";
     OnTxDone "t2" (Valid "b1" false)].
Proof. vm_compute. reflexivity. Qed.

Lemma oracle_queried_at_most_twice_demo :
  occurrences (IsTxValid "b1" "t2")
    (emitted demo_api 3 init [NewBlock "b1" "genesis"; Finalized "b1"]) ≤ 2 ∧
  ∃ b tr0,
    firstn 6 (emitted demo_api 3 init [NewBlock "b1" "genesis"; Finalized "b1"])
      = tr0 ++ oracle_calls demo_api b "t2"
    ∧ Valid "b1" false = outcome_of demo_api b "t2".
Proof.
  destruct (oracle_queried_at_most_twice demo_api 3
              [NewBlock "b1" "genesis"; Finalized "b1"]) as [Hcount Hdone].
  split.
  - apply Hcount.
  - apply (Hdone _ "t2" (Valid "b1" false) []). vm_compute. reflexivity.
Defined.

(** ** Unpinning *)

Lemma ancestor_walk fuel parents b fin a :
  walk fuel parents b ∅ = Some fin → ancestor parents b a ↔ a ∈ fin.
Proof.
  intros Hw. rewrite (walk_collects _ _ _ _ _ Hw a). set_solver.
Qed.

(** C4, as the code has it: no handler calls [unpin]; a [Finalized]
    event, like every other event, leaves every recorded block
    recorded. *)
Theorem unpin_never_called api fuel events :
  (∀ blocks, Unpin blocks ∉ emitted api fuel init events) ∧
  (∀ st e st' tr,
      handle api fuel st e = Some (st', tr) →
      dom (blockParents st) ⊆ dom (blockParents st')).
Proof.
  split.
  - apply (emitted_trace api (λ tr, ∀ blocks, Unpin blocks ∉ tr)).
    + intros blocks. apply not_elem_of_nil.
    + intros a b Ha Hb blocks. apply not_elem_of_app. auto.
    + intros b blocks ?%list_elem_of_singleton. done.
    + intros b st x blocks. unfold settle_tx, oracle_calls.
      case_match; cbn [snd]; [apply not_elem_of_nil|].
      destruct (isTxValid api b x); set_solver.
    + intros D st x blocks. unfold done_tx, oracle_calls.
      case_match; cbn [snd]; [|apply not_elem_of_nil].
      destruct (isTxValid api _ x); set_solver.
  - intros st e st' tr He. destruct e as [b p|t|b]; simpl in He.
    + apply Some_pair_inv in He as [-> _]. rewrite onNewBlock_unfold. cbn [fst].
      destruct (settle_loop_state api b (getBody api b) (record_parent st b p))
        as (_ & -> & _).
      simpl. rewrite dom_insert. set_solver.
    + apply Some_pair_inv in He as [-> _]. unfold onNewTx. by case_match.
    + unfold onFinalized in He. destruct (walk _ _ _ _) as [fin|]; [|done].
      apply Some_pair_inv in He as [-> _].
      by destruct (done_loop_state api (txs_to_done fin (settledTxs st))
                     (newTxs st) st) as (_ & _ & -> & _).
Qed.

(** After [demo_events] the fork [b1'] is known, is no ancestor of
    [b2] and no descendant of it, and finalizing [b2] unpins nothing. *)
Lemma finalized_releases_nothing :
  is_Some (blockParents (state_of (run demo_api 4 init demo_events)) !! "b1'") ∧
  ¬ ancestor (blockParents (state_of (run demo_api 4 init demo_events)))
      "b2" "b1'" ∧
  ¬ ancestor (blockParents (state_of (run demo_api 4 init demo_events)))
      "b1'" "b2" ∧
  ¬ ∃ blocks,
      Unpin blocks
        ∈ trace_of (handle demo_api 4
                      (state_of (run demo_api 4 init demo_events))
                      (Finalized "b2")).
Proof.
  split_and!.
  - vm_compute. eauto.
  - rewrite (ancestor_walk 4 _ _ {["b2"; "b1"; "genesis"]});
      [|vm_compute; reflexivity].
    intros H%(bool_decide_pack _). vm_compute in H. done.
  - rewrite (ancestor_walk 4 _ _ {["b1'"; "genesis"]});
      [|vm_compute; reflexivity].
    intros H%(bool_decide_pack _). vm_compute in H. done.
  - intros [blocks H].
    assert (trace_of (handle demo_api 4
                        (state_of (run demo_api 4 init demo_events))
                        (Finalized "b2"))
            = [IsTxValid "b2" "t1"; IsTxSuccessful "b2" "t1";
               OnTxDone "t1" (Valid "b2" true);
               IsTxValid "b1" "t2"; IsTxSuccessful "b1" "t2";
               OnTxDone "t2" (Valid "b1" false);
               IsTxValid "b2" "t3"; OnTxDone "t3" (Invalid "b2")]) as Heq
      by (vm_compute; reflexivity).
    rewrite Heq in H.
    repeat (apply elem_of_cons in H as [H|H]; [discriminate H|]).
    by apply elem_of_nil in H.
Qed.

Lemma unpin_never_called_demo :
  dom (blockParents (state_of (run demo_api 4 init demo_events)))
  ⊆ dom (blockParents
           (state_of (handle demo_api 4
                        (state_of (run demo_api 4 init demo_events))
                        (Finalized "b2")))).
Proof.
  destruct (unpin_never_called demo_api 4 []) as [_ Hkeep].
  apply (Hkeep _ (Finalized "b2") _
           (trace_of (handle demo_api 4
                        (state_of (run demo_api 4 init demo_events))
                        (Finalized "b2")))).
  vm_compute. reflexivity.
Defined.

(** ** Finalization *)

(** C5: a [Finalized] event whose walk reaches a root makes done, and
    reports done, every transaction settled in the finalized block or in
    any block the walk passes through, whether or not those blocks had a
    [Finalized] event of their own. *)
Theorem finalization_is_transitive api fuel0 events st tr0 blockHash :
  run api fuel0 init events = Some (st, tr0) →
  reaches_root (blockParents st) blockHash →
  ∃ fuel fin st' tr,
    walk fuel (blockParents st) blockHash ∅ = Some fin ∧
    (∀ a, a ∈ fin ↔ ancestor (blockParents st) blockHash a) ∧
    handle api fuel st (Finalized blockHash) = Some (st', tr) ∧
    ∀ t b,
      settledTxs st !! t = Some b →
      ancestor (blockParents st) blockHash b →
      t ∈ doneTxs st' ∧ settledTxs st' !! t = None ∧
      OnTxDone t (outcome_of api b t) ∈ tr.
Proof.
  intros Hrun Hroot.
  destruct (consistent_run _ _ _ _ _ Hrun) as [[_ _ Hq _] _].
  destruct (reaches_root_walk _ _ Hroot) as [fuel Hfuel].
  destruct (Hfuel ∅) as [fin Hw].
  set (D := txs_to_done fin (settledTxs st)).
  exists fuel, fin, (for_each (done_tx api D) st (newTxs st)).1,
         (for_each (done_tx api D) st (newTxs st)).2.
  split_and!; [done| | |].
  - intros a. by rewrite (ancestor_walk _ _ _ _ a Hw).
  - simpl. unfold onFinalized. rewrite Hw. simpl. fold D.
    by destruct (for_each _ _ _).
  - intros t b Hb Ha.
    assert (t ∈ D) as HD.
    { apply elem_of_txs_to_done. exists b. split; [done|].
      by apply (ancestor_walk _ _ _ _ b Hw). }
    assert (t ∈ newTxs st) as Hl.
    { apply Hq, elem_of_known. right. left. eauto. }
    destruct (done_loop_state api D (newTxs st) st) as (_ & _ & _ & Hd & Hs).
    split_and!.
    + apply Hd. auto.
    + rewrite Hs. by rewrite decide_True.
    + pose proof (done_loop_call api D (newTxs st) st t Hl HD) as Hc.
      unfold get_or_empty in Hc. by rewrite Hb in Hc.
Qed.

(** The gap scenario: [t2] settled in [b1], [t1] and [t3] in its child
    [b2]; only [b2] is ever finalized. *)
Lemma finalization_is_transitive_demo :
  ∃ fuel fin st' tr,
    walk fuel (blockParents (state_of (run demo_api 4 init demo_events)))
         "b2" ∅ = Some fin ∧
    (∀ a, a ∈ fin ↔
          ancestor (blockParents (state_of (run demo_api 4 init demo_events)))
                   "b2" a) ∧
    handle demo_api fuel (state_of (run demo_api 4 init demo_events))
           (Finalized "b2") = Some (st', tr) ∧
    "t2" ∈ doneTxs st' ∧ settledTxs st' !! "t2" = None ∧
    OnTxDone "t2" (outcome_of demo_api "b1" "t2") ∈ tr.
Proof.
  destruct (finalization_is_transitive demo_api 4 demo_events
              (state_of (run demo_api 4 init demo_events))
              (trace_of (run demo_api 4 init demo_events)) "b2")
    as (fuel & fin & st' & tr & Hw & Hfin & Hh & Ht).
  - vm_compute. reflexivity.
  - apply (walk_reaches_root 4 _ _ ∅ {["b2"; "b1"; "genesis"]}).
    vm_compute. reflexivity.
  - exists fuel, fin, st', tr.
    destruct (Ht "t2" "b1") as (Hd & Hs & Hc).
    + vm_compute. reflexivity.
    + apply (ancestor_walk 4 _ _ {["b2"; "b1"; "genesis"]});
        [vm_compute; reflexivity|].
      apply (bool_decide_unpack _). vm_compute. exact I.
    + split_and!; done.
Defined.

(** ** Resubmission *)

(** C6: submitting a transaction that is pending, settled or done
    changes nothing and calls nothing; so does a second submission right
    after a first one. *)
Theorem resubmission_is_noop api fuel st t :
  (t ∈ pendingTxs st ∨ is_Some (settledTxs st !! t) ∨ t ∈ doneTxs st →
   handle api fuel st (NewTransaction t) = Some (st, [])) ∧
  handle api fuel (onNewTx st t).1 (NewTransaction t)
    = Some ((onNewTx st t).1, []).
Proof.
  split.
  - intros Hk. simpl. rewrite onNewTx_known; [done|]. by apply elem_of_known.
  - simpl. rewrite (onNewTx_known (onNewTx st t).1); [done|].
    destruct (decide (t ∈ known st)) as [Hk|Hk].
    + by rewrite onNewTx_known.
    + rewrite onNewTx_unknown by done. apply elem_of_known. simpl.
      left. set_solver.
Qed.

Lemma resubmission_is_noop_demo :
  handle demo_api 4 (state_of (run demo_api 4 init demo_events))
         (NewTransaction "t4")
  = Some (state_of (run demo_api 4 init demo_events), []).
Proof.
  destruct (resubmission_is_noop demo_api 4
              (state_of (run demo_api 4 init demo_events)) "t4") as [Hknown _].
  apply Hknown. right. left. vm_compute. eauto.
Defined.

(** ** Unknown blocks *)

(** C7, as the code has it: finalizing a block that no [NewBlock] event
    announced visits that block alone (nothing at all when its name is
    the empty string), changes nothing and calls nothing. *)
Theorem finalized_unseen_block api fuel0 events st tr0 blockHash fuel :
  run api fuel0 init events = Some (st, tr0) →
  blockParents st !! blockHash = None →
  walk (S (S fuel)) (blockParents st) blockHash ∅
    = Some (if decide (blockHash = "") then ∅ else {[blockHash]}) ∧
  handle api (S (S fuel)) st (Finalized blockHash) = Some (st, []).
Proof.
  intros Hrun Hunseen.
  destruct (consistent_run _ _ _ _ _ Hrun) as [[_ _ _ Hbk] _].
  assert (walk (S (S fuel)) (blockParents st) blockHash ∅
          = Some (if decide (blockHash = "") then ∅ else {[blockHash]})) as Hw.
  { simpl. destruct (decide (blockHash = "")); [done|].
    unfold get_or_empty. rewrite Hunseen. simpl.
    f_equal. set_solver. }
  split; [done|].
  unfold handle, onFinalized. rewrite Hw. f_equal.
  apply done_loop_nothing. intros t _ (b & Hb & Hin)%elem_of_txs_to_done.
  destruct (decide (blockHash = "")); [set_solver|].
  apply elem_of_singleton in Hin as ->.
  destruct (Hbk _ _ Hb) as [? ?]. congruence.
Qed.

(** The walk started at a block nobody announced is not empty. *)
Lemma unseen_block_walk_not_empty :
  walk 2 (blockParents (state_of (run demo_api 4 init demo_events)))
       "ghost" ∅
  ≠ Some ∅.
Proof.
  assert (walk 2 (blockParents (state_of (run demo_api 4 init demo_events)))
               "ghost" ∅ = Some {["ghost"]}) as ->
    by (vm_compute; reflexivity).
  by intros [=].
Qed.

Lemma finalized_unseen_block_demo :
  walk 2 (blockParents (state_of (run demo_api 4 init demo_events)))
       "ghost" ∅ = Some {["ghost"]} ∧
  handle demo_api 2 (state_of (run demo_api 4 init demo_events))
         (Finalized "ghost")
  = Some (state_of (run demo_api 4 init demo_events), []).
Proof.
  apply (finalized_unseen_block demo_api 4 demo_events
           (state_of (run demo_api 4 init demo_events))
           (trace_of (run demo_api 4 init demo_events)) "ghost" 0).
  - vm_compute. reflexivity.
  - vm_compute. reflexivity.
Defined.

(** ** Lifecycle *)

Lemma advances_refl a : advances a a.
Proof. by destruct a. Qed.

Lemma advances_trans a b c : advances a b → advances b c → advances a c.
Proof. destruct a, b, c; simpl; try done; congruence. Qed.

Lemma advances_intro st st' t :
  (t ∈ doneTxs st → t ∈ doneTxs st') →
  (∀ b, settledTxs st !! t = Some b →
        settledTxs st' !! t = Some b ∨ t ∈ doneTxs st') →
  (t ∈ pendingTxs st →
   t ∈ pendingTxs st' ∨ is_Some (settledTxs st' !! t) ∨ t ∈ doneTxs st') →
  advances (status st t) (status st' t).
Proof.
  intros Hd Hs Hp. unfold status, set_has.
  destruct (decide (t ∈ doneTxs st)) as [Hin|Hout].
  - rewrite !bool_decide_eq_true_2 by auto. done.
  - rewrite (bool_decide_eq_false_2 (t ∈ doneTxs st)) by done.
    destruct (settledTxs st !! t) as [b|] eqn:Hb.
    + destruct (Hs b eq_refl) as [Hb'|Hd'].
      * rewrite Hb'. by case_bool_decide.
      * by rewrite bool_decide_eq_true_2.
    + case_bool_decide as Hpin; [|done].
      destruct (Hp Hpin) as [?|[[b' Hb']|?]].
      * case_bool_decide; [done|]. destruct (settledTxs st' !! t); [done|].
        by rewrite bool_decide_eq_true_2.
      * case_bool_decide; [done|]. by rewrite Hb'.
      * by rewrite bool_decide_eq_true_2.
Qed.

Section Lifecycle.
Variable api : API.

Lemma advances_handle fuel st e st' tr t :
  handle api fuel st e = Some (st', tr) →
  advances (status st t) (status st' t).
Proof.
  destruct e as [b p|x|b]; simpl.
  - intros [-> ->]%Some_pair_inv. rewrite onNewBlock_unfold. cbn [fst].
    destruct (settle_loop_state api b (getBody api b) (record_parent st b p))
      as (Hd & _ & _ & Hs & Hp & _).
    apply advances_intro.
    + by rewrite Hd.
    + intros b' Hb'. left. rewrite Hs, decide_False; [done|].
      intros [_ [Hn _]]. simpl in Hn. congruence.
    + intros Hin. rewrite Hs, Hd. simpl.
      case_decide as Hc; [right; left; eauto|].
      left. apply Hp. done.
  - intros [-> ->]%Some_pair_inv.
    destruct (decide (x ∈ known st)) as [Hk|Hk].
    + rewrite onNewTx_known by done. apply advances_refl.
    + rewrite onNewTx_unknown by done.
      apply advances_intro; simpl; [done|auto|]. set_solver.
  - unfold onFinalized. destruct (walk _ _ _ _) as [fin|]; [|done].
    intros [-> ->]%Some_pair_inv.
    destruct (done_loop_state api (txs_to_done fin (settledTxs st))
                (newTxs st) st) as (Hp & _ & _ & Hd & Hs).
    apply advances_intro.
    + rewrite Hd. auto.
    + intros b' Hb'. rewrite Hs, Hd. case_decide; auto.
    + rewrite Hp. auto.
Qed.

Lemma handle_settled_ids fuel st e st' tr t :
  handle api fuel st e = Some (st', tr) →
  t ∈ settled_ids tr → settledTxs st !! t = None ∧ t ∉ doneTxs st.
Proof.
  destruct e as [b p|x|b]; simpl.
  - intros [-> ->]%Some_pair_inv.
    destruct (onNewBlock_ids api st b p) as [-> _].
    rewrite elem_of_fresh, elem_of_union, elem_of_dom.
    intros [_ Hn]. split; [|tauto].
    destruct (settledTxs st !! t); [|done]. destruct Hn. left. eauto.
  - intros [-> ->]%Some_pair_inv. unfold onNewTx.
    case_match; by intros ?%elem_of_nil.
  - intros (fin & _ & _ & ->)%onFinalized_ids. by intros ?%elem_of_nil.
Qed.

Lemma settled_or_done_status st t :
  is_Some (settledTxs st !! t) ∨ t ∈ doneTxs st ↔
  status st t = Done ∨ ∃ b, status st t = Settled b.
Proof.
  unfold status, set_has. case_bool_decide as Hd.
  - split; auto.
  - destruct (settledTxs st !! t) as [b|].
    + split; [eauto|]. intros _. left. eauto.
    + split.
      * intros [[? ?]|?]; done.
      * case_bool_decide; intros [?|[? ?]]; done.
Qed.

Lemma settled_or_done_kept fuel st e st' tr t :
  handle api fuel st e = Some (st', tr) →
  is_Some (settledTxs st !! t) ∨ t ∈ doneTxs st →
  is_Some (settledTxs st' !! t) ∨ t ∈ doneTxs st'.
Proof.
  intros He. pose proof (advances_handle _ _ _ _ _ t He) as Ha.
  rewrite !settled_or_done_status.
  intros [Hs|[b Hs]]; rewrite Hs in Ha; destruct (status st' t); eauto; done.
Qed.
End Lifecycle.

(** C8: over any run, the lifecycle of a transaction never steps back
    and its settlement block never changes; once it is settled or done,
    the loop of [onNewBlock] skips it and no later block reports it
    settled again. *)
Theorem first_settlement_wins api fuel st events st' tr t :
  run api fuel st events = Some (st', tr) →
  advances (status st t) (status st' t) ∧
  (is_Some (settledTxs st !! t) ∨ t ∈ doneTxs st →
   (∀ blockHash, settle_tx api blockHash st t = (st, [])) ∧
   t ∉ settled_ids tr).
Proof.
  intros Hrun. split; [|intros Hsd; split].
  - revert st tr Hrun. induction events as [|e events IH]; intros st tr.
    + intros [= <- <-]. apply advances_refl.
    + intros (st1 & tr1 & tr2 & He & Hr & ->)%run_cons.
      eapply advances_trans; [by eapply advances_handle|by eapply IH].
  - intros b. apply settle_tx_skip. unfold unsettled.
    intros [Hn Hd]. destruct Hsd as [[? Hs]|?]; [congruence|done].
  - revert st tr Hrun Hsd. induction events as [|e events IH]; intros st tr.
    + intros [= <- <-] _. apply not_elem_of_nil.
    + intros (st1 & tr1 & tr2 & He & Hr & ->)%run_cons Hsd.
      unfold settled_ids. rewrite omap_app. apply not_elem_of_app. split.
      * intros [Hs Hd]%(handle_settled_ids _ _ _ _ _ _ _ He).
        destruct Hsd as [[? Hs']|?]; [congruence|done].
      * eapply IH; [done|]. by eapply settled_or_done_kept.
Qed.

(** [t2] settles in [b1]; a later block [b3] that lists it again (and
    its finalization) does not settle it again. *)
Lemma first_settlement_wins_demo :
  advances
    (status (state_of (run demo_api 4 init demo_events)) "t2")
    (status (state_of (run demo_api 5 (state_of (run demo_api 4 init demo_events))
                         [NewBlock "b3" "b2"; Finalized "b3"])) "t2") ∧
  (∀ blockHash,
      settle_tx demo_api blockHash
        (state_of (run demo_api 4 init demo_events)) "t2"
      = (state_of (run demo_api 4 init demo_events), [])) ∧
  "t2" ∉ settled_ids
           (trace_of (run demo_api 5 (state_of (run demo_api 4 init demo_events))
                        [NewBlock "b3" "b2"; Finalized "b3"])).
Proof.
  destruct (first_settlement_wins demo_api 5
              (state_of (run demo_api 4 init demo_events))
              [NewBlock "b3" "b2"; Finalized "b3"]
              (state_of (run demo_api 5 (state_of (run demo_api 4 init demo_events))
                           [NewBlock "b3" "b2"; Finalized "b3"]))
              (trace_of (run demo_api 5 (state_of (run demo_api 4 init demo_events))
                           [NewBlock "b3" "b2"; Finalized "b3"]))
              "t2") as [Hadv Hskip].
  - vm_compute. reflexivity.
  - split; [exact Hadv|]. apply Hskip. left. vm_compute. eauto.
Defined.

(** ** Termination of the walk *)

(** C9, as the code has it: the walk follows the recorded links and
    stops at the first block without a recorded, non-empty parent; it
    ends whenever the links lead to blocks of smaller height, and it has
    no guard of its own: from a block whose links lead into a cycle it
    never ends. *)
Theorem walk_ends_unless_cyclic :
  (∀ height parents b,
      links_decrease height parents →
      ∃ fuel fin,
        (∀ fuel', fuel ≤ fuel' → walk fuel' parents b ∅ = Some fin) ∧
        (∀ a, a ∈ fin ↔ ancestor parents b a) ∧
        (b ≠ "" → ∃ root, root ∈ fin ∧ get_or_empty parents root = "")) ∧
  (∀ parents c b,
      on_cycle parents c → ancestor parents b c →
      ∀ fuel acc, walk fuel parents b acc = None).
Proof.
  split.
  - intros height parents b Hdec.
    pose proof (links_decrease_reaches_root height parents b Hdec) as Hroot.
    destruct (reaches_root_walk _ _ Hroot) as [fuel Hfuel].
    destruct (Hfuel ∅) as [fin Hw]. exists fuel, fin. split_and!.
    + intros fuel' Hle. by eapply walk_more_fuel.
    + intros a. by rewrite (ancestor_walk _ _ _ _ a Hw).
    + intros Hne. destruct (walk_ends_at_root _ _ _ _ _ Hw Hne) as (root & ? & ?).
      exists root. split; [|done]. by apply (ancestor_walk _ _ _ _ root Hw).
  - intros parents c b Hc Hb fuel acc. by eapply walk_cycle_diverges.
Qed.

(** A block announced as its own parent: its finalization never returns. *)
Lemma self_parent_walk_diverges :
  ¬ ∃ fuel,
      is_Some (handle demo_api fuel
                 (state_of (run demo_api 1 init [NewBlock "a" "a"]))
                 (Finalized "a")).
Proof.
  intros [fuel [r Hr]].
  assert (walk fuel
            (blockParents (state_of (run demo_api 1 init [NewBlock "a" "a"])))
            "a" ∅ = None) as Hw.
  { apply (walk_cycle_diverges _ "a" "a").
    - unfold on_cycle.
      assert (get_or_empty
                (blockParents
                   (state_of (run demo_api 1 init [NewBlock "a" "a"])))
                "a" = "a") as -> by (vm_compute; reflexivity).
      by constructor.
    - by constructor. }
  unfold handle, onFinalized in Hr. by rewrite Hw in Hr.
Qed.

Lemma walk_ends_unless_cyclic_demo :
  (∃ fuel fin,
      (∀ fuel', fuel ≤ fuel' →
         walk fuel' (blockParents (state_of (run demo_api 4 init demo_events)))
              "b2" ∅ = Some fin) ∧
      (∀ a, a ∈ fin ↔
            ancestor (blockParents (state_of (run demo_api 4 init demo_events)))
                     "b2" a) ∧
      ("b2" ≠ "" →
       ∃ root, root ∈ fin ∧
         get_or_empty (blockParents (state_of (run demo_api 4 init demo_events)))
                      root = "")) ∧
  (∀ fuel acc, walk fuel {["a" := "a"]} "a" acc = None).
Proof.
  destruct walk_ends_unless_cyclic as [Hends Hcycle]. split.
  - apply (Hends demo_height).
    apply (bool_decide_unpack _). vm_compute. exact I.
  - apply (Hcycle _ "a" "a").
    + unfold on_cycle.
      assert (get_or_empty ({["a" := "a"]} : gmap string string) "a" = "a")
        as -> by (vm_compute; reflexivity).
      by constructor.
    + by constructor.
Defined.

(** ** Disjointness of the lifecycle collections *)

(** C10: the pending set, the keys of the settled map and the done set
    are pairwise disjoint at the start, every handler keeps them so, and
    so they are in every state a sequence of events leads to. *)
Theorem lifecycle_sets_disjoint api :
  disjoint_sets init ∧
  (∀ fuel st e st' tr,
      disjoint_sets st → handle api fuel st e = Some (st', tr) →
      disjoint_sets st') ∧
  (∀ fuel events st tr,
      run api fuel init events = Some (st, tr) → disjoint_sets st).
Proof.
  split_and!.
  - apply separated_disjoint, well_formed_init.
  - intros fuel st e st' tr Hst He. apply separated_disjoint.
    eapply disjoint_handle; [|done]. by apply separated_disjoint.
  - intros fuel events st tr Hrun. apply separated_disjoint.
    by destruct (consistent_run _ _ _ _ _ Hrun) as [[? _ _ _] _].
Qed.

Lemma lifecycle_sets_disjoint_demo :
  disjoint_sets (state_of (run demo_api 4 init demo_events)) ∧
  disjoint_sets (state_of (handle demo_api 4
                             (state_of (run demo_api 4 init demo_events))
                             (Finalized "b2"))).
Proof.
  destruct (lifecycle_sets_disjoint demo_api) as (_ & Hstep & Hrun).
  assert (disjoint_sets (state_of (run demo_api 4 init demo_events))) as Hst.
  { apply (Hrun 4 demo_events _ (trace_of (run demo_api 4 init demo_events))).
    vm_compute. reflexivity. }
  split; [exact Hst|].
  apply (Hstep 4 (state_of (run demo_api 4 init demo_events)) (Finalized "b2") _
           (trace_of (handle demo_api 4
                        (state_of (run demo_api 4 init demo_events))
                        (Finalized "b2"))));
    [exact Hst|].
  vm_compute. reflexivity.
Defined.


(** * Further properties of the handlers *)

(** ** The calls of one handler *)

Section HandlerCalls.
Variable api : API.

Lemma settle_loop_calls blockHash l st :
  (for_each (settle_tx api blockHash) st l).2
  = concat (map (settle_calls api blockHash)
              (fresh (dom (settledTxs st) ∪ doneTxs st) l)).
Proof.
  revert st. induction l as [|x l IH]; intros st; [done|].
  rewrite for_each_cons. cbn [fst snd]. rewrite IH.
  destruct (decide (unsettled st x)) as [Hu|Hu].
  - rewrite settle_tx_new by done. cbn [fst snd settledTxs doneTxs fresh].
    destruct Hu as [Hs Hd].
    rewrite decide_False
      by (rewrite elem_of_union, elem_of_dom, Hs; by intros [[? ?]|?]).
    cbn [map concat]. unfold settle_calls at 2. f_equal. do 2 f_equal.
    apply fresh_ext. intros t. rewrite dom_insert. set_solver.
  - rewrite settle_tx_skip by done. cbn [fst snd fresh].
    rewrite decide_True; [done|].
    rewrite elem_of_union, elem_of_dom. unfold unsettled in Hu.
    destruct (settledTxs st !! x); [eauto|].
    destruct (decide (x ∈ doneTxs st)); [auto|]. naive_solver.
Qed.

Lemma settle_loop_nothing blockHash l st :
  (∀ t, t ∈ l → ¬ unsettled st t) →
  for_each (settle_tx api blockHash) st l = (st, []).
Proof.
  revert st. induction l as [|x l IH]; intros st Hl; [done|].
  rewrite for_each_cons, settle_tx_skip by (apply Hl; left).
  cbn [fst snd]. rewrite IH; [done|]. intros t Ht. apply Hl. by right.
Qed.

Lemma done_tx_in D st x :
  x ∈ D →
  done_tx api D st x =
    ({| pendingTxs := pendingTxs st;
        settledTxs := delete x (settledTxs st);
        doneTxs := {[x]} ∪ doneTxs st;
        newTxs := newTxs st;
        blockParents := blockParents st |},
     done_calls api (get_or_empty (settledTxs st) x) x).
Proof.
  intros HD. unfold done_tx, set_has. by rewrite bool_decide_eq_true_2.
Qed.

Lemma done_tx_out D st x : x ∉ D → done_tx api D st x = (st, []).
Proof.
  intros HD. unfold done_tx, set_has. by rewrite bool_decide_eq_false_2.
Qed.

Lemma done_loop_calls D l st :
  NoDup l →
  (for_each (done_tx api D) st l).2
  = concat (map (λ t, done_calls api (get_or_empty (settledTxs st) t) t)
              (filter (λ t, t ∈ D) l)).
Proof.
  revert st. induction l as [|x l IH]; intros st Hnd; [done|].
  apply NoDup_cons in Hnd as [Hx Hnd].
  rewrite for_each_cons. cbn [fst snd]. rewrite IH by done.
  rewrite filter_cons. destruct (decide (x ∈ D)) as [HD|HD].
  - rewrite done_tx_in by done. cbn [fst snd map concat settledTxs].
    f_equal. f_equal.
    apply map_ext_in. intros t [_ Ht]%list_elem_of_In%list_elem_of_filter.
    unfold get_or_empty. rewrite lookup_delete_ne; [done|]. by intros ->.
  - by rewrite done_tx_out.
Qed.

Lemma elem_of_settle_calls blockHash t c :
  c ∈ settle_calls api blockHash t →
  c = IsTxValid blockHash t ∨
  (c = IsTxSuccessful blockHash t ∧ isTxValid api blockHash t = true) ∨
  c = OnTxSettled t (outcome_of api blockHash t).
Proof.
  unfold settle_calls, oracle_calls.
  destruct (isTxValid api blockHash t); set_solver.
Qed.

Lemma elem_of_done_calls blockHash t c :
  c ∈ done_calls api blockHash t →
  c = IsTxValid blockHash t ∨
  (c = IsTxSuccessful blockHash t ∧ isTxValid api blockHash t = true) ∨
  c = OnTxDone t (outcome_of api blockHash t).
Proof.
  unfold done_calls, oracle_calls.
  destruct (isTxValid api blockHash t); set_solver.
Qed.

Lemma elem_of_concat_map {A} (g : A → list call) (l : list A) c :
  c ∈ concat (map g l) ↔ ∃ x, x ∈ l ∧ c ∈ g x.
Proof.
  induction l as [|y l IH]; simpl.
  - split; [by intros ?%elem_of_nil|]. intros (x & ?%elem_of_nil & _). done.
  - rewrite elem_of_app, IH. split.
    + intros [?|(x & ? & ?)]; [exists y|exists x]; split; try done;
        [left|by right].
    + intros (x & [->|?]%elem_of_cons & ?); [by left|right; eauto].
Qed.
End HandlerCalls.

(** X5: a [NewBlock] event fetches the body once and then, for each
    transaction of the body that is neither settled nor done, at its
    first occurrence and in body order, asks for its validity (and its
    success when valid) and reports it settled in this block. *)
Theorem new_block_calls api st blockHash parent :
  (onNewBlock api st blockHash parent).2
  = GetBody blockHash ::
    concat (map (settle_calls api blockHash)
              (fresh (dom (settledTxs st) ∪ doneTxs st)
                     (getBody api blockHash))).
Proof.
  rewrite onNewBlock_unfold. cbn [snd]. f_equal.
  exact (settle_loop_calls api blockHash (getBody api blockHash)
           (record_parent st blockHash parent)).
Qed.

(** X6: in a state the tracker can reach, a [Finalized] event whose walk
    returns makes its calls for the settled transactions whose block the
    walk collected, in queue order: for each one the validity (and
    success) query for its settlement block, then [onTxDone]. *)
Theorem finalized_calls api fuel0 events st tr0 fuel blockHash st' tr :
  run api fuel0 init events = Some (st, tr0) →
  handle api fuel st (Finalized blockHash) = Some (st', tr) →
  ∃ fin,
    walk fuel (blockParents st) blockHash ∅ = Some fin ∧
    tr = concat (map (λ t, done_calls api (get_or_empty (settledTxs st) t) t)
                   (filter (λ t, t ∈ txs_to_done fin (settledTxs st))
                           (newTxs st))).
Proof.
  intros Hrun He.
  destruct (consistent_run _ _ _ _ _ Hrun) as [[_ Hnd _ _] _].
  simpl in He. unfold onFinalized in He.
  destruct (walk _ _ _ _) as [fin|]; [|done].
  apply Some_pair_inv in He as [-> ->]. exists fin. split; [done|].
  by apply done_loop_calls.
Qed.

Lemma finalized_calls_demo :
  ∃ fin,
    walk 4 (blockParents (state_of (run demo_api 4 init demo_events))) "b2" ∅
      = Some fin ∧
    trace_of (handle demo_api 4 (state_of (run demo_api 4 init demo_events))
                (Finalized "b2"))
    = concat (map (λ t, done_calls demo_api
                          (get_or_empty
                             (settledTxs
                                (state_of (run demo_api 4 init demo_events))) t)
                          t)
                (filter (λ t, t ∈ txs_to_done fin
                                    (settledTxs
                                       (state_of (run demo_api 4 init
                                                    demo_events))))
                        (newTxs (state_of (run demo_api 4 init demo_events))))).
Proof.
  apply (finalized_calls demo_api 4 demo_events
           (state_of (run demo_api 4 init demo_events))
           (trace_of (run demo_api 4 init demo_events)) 4 "b2"
           (state_of (handle demo_api 4
                        (state_of (run demo_api 4 init demo_events))
                        (Finalized "b2")))).
  - vm_compute. reflexivity.
  - vm_compute. reflexivity.
Defined.

(** ** What the collections hold *)

Lemma omap_count_exact {A B} `{EqDecision B}
    (f : A → option B) (l : list A) (y : B) :
  NoDup (omap f l) →
  length (filter (λ x, f x = Some y) l)
  = if decide (y ∈ omap f l) then 1 else 0.
Proof.
  intros Hnd. pose proof (NoDup_omap_count f l y Hnd) as Hle.
  destruct (filter (λ x, f x = Some y) l) as [|x k] eqn:Hf.
  - rewrite decide_False; [done|].
    intros (x & Hx & Hfx)%list_elem_of_omap.
    assert (x ∈ filter (λ x, f x = Some y) l) as Hin
      by (by apply list_elem_of_filter).
    rewrite Hf in Hin. by apply elem_of_nil in Hin.
  - assert (x ∈ filter (λ x, f x = Some y) l) as Hin by (rewrite Hf; left).
    apply list_elem_of_filter in Hin as [Hfx Hx].
    rewrite decide_True by (apply list_elem_of_omap; eauto).
    simpl in *. lia.
Qed.

(** X1: the arrival queue lists, without repetition and in the order
    of their first appearance, the identifiers that the events showed to
    the tracker (submitted, or listed in the body of an announced
    block); these are exactly the identifiers the tracker knows. *)
Theorem arrival_queue_first_seen api fuel events st tr :
  run api fuel init events = Some (st, tr) →
  newTxs st = fresh ∅ (concat (map (seen_txs api) events)) ∧
  ∀ t, t ∈ known st ↔ t ∈ concat (map (seen_txs api) events).
Proof.
  intros Hrun. pose proof (queue_first_seen _ _ _ _ _ Hrun) as Hq.
  split; [done|]. intros t.
  destruct (consistent_run _ _ _ _ _ Hrun) as [[_ _ Hk _] _].
  rewrite <- Hk, Hq, elem_of_fresh. set_solver.
Qed.

Lemma arrival_queue_first_seen_demo :
  newTxs (state_of (run demo_api 4 init demo_events))
  = fresh ∅ (concat (map (seen_txs demo_api) demo_events)) ∧
  ∀ t, t ∈ known (state_of (run demo_api 4 init demo_events))
       ↔ t ∈ concat (map (seen_txs demo_api) demo_events).
Proof.
  apply (arrival_queue_first_seen demo_api 4 demo_events _
           (trace_of (run demo_api 4 init demo_events))).
  vm_compute. reflexivity.
Defined.

(** X2: in every state the tracker reaches, the arrival queue has no
    duplicate, holds exactly the pending, settled and done identifiers,
    and so is as long as the three collections together. *)
Theorem queue_matches_collections api fuel events st tr :
  run api fuel init events = Some (st, tr) →
  NoDup (newTxs st) ∧
  (∀ t, t ∈ newTxs st ↔
        t ∈ pendingTxs st ∨ is_Some (settledTxs st !! t) ∨ t ∈ doneTxs st) ∧
  length (newTxs st)
  = size (pendingTxs st) + size (dom (settledTxs st)) + size (doneTxs st).
Proof.
  intros Hrun.
  destruct (consistent_run _ _ _ _ _ Hrun) as [[Hsep Hnd Hk _] _].
  apply separated_disjoint in Hsep as (Hps & Hpd & Hsd).
  split_and!; [done| |].
  - intros t. by rewrite Hk, elem_of_known.
  - rewrite <- (size_list_to_set (C := gset string)) by done.
    assert (list_to_set (newTxs st) = known st) as ->.
    { apply set_eq. intros t. by rewrite elem_of_list_to_set, Hk. }
    unfold known. rewrite !size_union; [done|done|set_solver].
Qed.

Lemma queue_matches_collections_demo :
  NoDup (newTxs (state_of (run demo_api 4 init demo_events))) ∧
  (∀ t, t ∈ newTxs (state_of (run demo_api 4 init demo_events)) ↔
        t ∈ pendingTxs (state_of (run demo_api 4 init demo_events))
        ∨ is_Some (settledTxs (state_of (run demo_api 4 init demo_events)) !! t)
        ∨ t ∈ doneTxs (state_of (run demo_api 4 init demo_events))) ∧
  length (newTxs (state_of (run demo_api 4 init demo_events)))
  = size (pendingTxs (state_of (run demo_api 4 init demo_events)))
    + size (dom (settledTxs (state_of (run demo_api 4 init demo_events))))
    + size (doneTxs (state_of (run demo_api 4 init demo_events))).
Proof.
  apply (queue_matches_collections demo_api 4 demo_events _
           (trace_of (run demo_api 4 init demo_events))).
  vm_compute. reflexivity.
Defined.

(** X3: the block recorded for a settled transaction is always a block
    that a [NewBlock] event announced, so it has an entry in the parent
    map. *)
Theorem settlement_block_recorded api fuel events st tr t b :
  run api fuel init events = Some (st, tr) →
  settledTxs st !! t = Some b →
  is_Some (blockParents st !! b).
Proof.
  intros Hrun Hb.
  destruct (consistent_run _ _ _ _ _ Hrun) as [[_ _ _ Hbk] _]. by eapply Hbk.
Qed.

Lemma settlement_block_recorded_demo :
  is_Some (blockParents (state_of (run demo_api 4 init demo_events)) !! "b1'").
Proof.
  apply (settlement_block_recorded demo_api 4 demo_events _
           (trace_of (run demo_api 4 init demo_events)) "t4" "b1'").
  - vm_compute. reflexivity.
  - vm_compute. reflexivity.
Defined.

(** X4: after any run, a transaction has been reported settled exactly
    once if it is settled or done and never otherwise, and reported done
    exactly once if it is done and never otherwise. *)
Theorem reported_exactly_once api fuel events st tr t :
  run api fuel init events = Some (st, tr) →
  times_settled t tr
  = (if decide (is_Some (settledTxs st !! t) ∨ t ∈ doneTxs st) then 1 else 0) ∧
  times_done t tr = (if decide (t ∈ doneTxs st) then 1 else 0).
Proof.
  intros Hrun.
  destruct (consistent_run _ _ _ _ _ Hrun) as [_ [Hsn Hs Hdn Hd _]].
  unfold times_settled, times_done.
  rewrite !omap_count_exact by done. split.
  - apply decide_ext, Hs.
  - apply decide_ext, Hd.
Qed.

Lemma reported_exactly_once_demo :
  times_settled "t4" (trace_of (run demo_api 4 init demo_events)) = 1 ∧
  times_done "t4" (trace_of (run demo_api 4 init demo_events)) = 0.
Proof.
  apply (reported_exactly_once demo_api 4 demo_events
           (state_of (run demo_api 4 init demo_events))
           (trace_of (run demo_api 4 init demo_events)) "t4").
  vm_compute. reflexivity.
Defined.

Lemma block_settles_shared api st blockHash parent :
  doneTxs (onNewBlock api st blockHash parent).1 = doneTxs st ∧
  blockParents (onNewBlock api st blockHash parent).1
  = <[blockHash := parent]> (blockParents st).
Proof.
  rewrite onNewBlock_unfold. cbn [fst].
  by destruct (settle_loop_state api blockHash (getBody api blockHash)
                 (record_parent st blockHash parent)) as (-> & -> & _).
Qed.

(** X7: a [NewBlock] event records the parent link, settles in this
    block every transaction of the body that is neither settled nor done
    (taking it out of the pending set), appends to the queue those among
    them it had never seen, and leaves every other transaction and the
    done set as they were. *)
Theorem block_settles_its_body api st blockHash parent t :
  doneTxs (onNewBlock api st blockHash parent).1 = doneTxs st ∧
  blockParents (onNewBlock api st blockHash parent).1
  = <[blockHash := parent]> (blockParents st) ∧
  newTxs (onNewBlock api st blockHash parent).1
  = newTxs st ++ fresh (known st) (getBody api blockHash) ∧
  (t ∈ getBody api blockHash → unsettled st t →
   settledTxs (onNewBlock api st blockHash parent).1 !! t = Some blockHash ∧
   t ∉ pendingTxs (onNewBlock api st blockHash parent).1) ∧
  (¬ (t ∈ getBody api blockHash ∧ unsettled st t) →
   settledTxs (onNewBlock api st blockHash parent).1 !! t = settledTxs st !! t ∧
   (t ∈ pendingTxs (onNewBlock api st blockHash parent).1 ↔ t ∈ pendingTxs st)).
Proof.
  rewrite onNewBlock_unfold. cbn [fst].
  destruct (settle_loop_state api blockHash (getBody api blockHash)
              (record_parent st blockHash parent))
    as (Hd & Hb & Hn & Hs & Hp & _).
  split_and!; [done|done|done| |].
  - intros Hin Hu. rewrite Hs, Hp. rewrite decide_True by done.
    split; [done|]. intros [_ Hn']. by apply Hn'.
  - intros Hn'. rewrite Hs, Hp. rewrite decide_False by done.
    split; [done|]. simpl. tauto.
Qed.

Lemma block_settles_its_body_demo :
  settledTxs (onNewBlock demo_api
                (state_of (run demo_api 4 init demo_events)) "b3" "b2").1
    !! "t5" = Some "b3" ∧
  settledTxs (onNewBlock demo_api
                (state_of (run demo_api 4 init demo_events)) "b3" "b2").1
    !! "t2"
  = settledTxs (state_of (run demo_api 4 init demo_events)) !! "t2".
Proof.
  destruct (block_settles_its_body demo_api
              (state_of (run demo_api 4 init demo_events)) "b3" "b2" "t5")
    as (_ & _ & _ & Hnew & _).
  destruct (block_settles_its_body demo_api
              (state_of (run demo_api 4 init demo_events)) "b3" "b2" "t2")
    as (_ & _ & _ & _ & Hold).
  split.
  - apply Hnew.
    + vm_compute. right. left.
    + split; [vm_compute; reflexivity|].
      intros H%(bool_decide_pack _). vm_compute in H. done.
  - apply Hold. intros [_ [Hs _]]. vm_compute in Hs. done.
Defined.

(** X8: a transaction becomes done, and is reported done, only by a
    [Finalized] event whose walk passes through the block in which the
    transaction is settled. *)
Theorem done_only_by_finalization api fuel st e st' tr t :
  handle api fuel st e = Some (st', tr) →
  (t ∈ doneTxs st' ∧ t ∉ doneTxs st) ∨ t ∈ done_ids tr →
  ∃ blockHash b,
    e = Finalized blockHash ∧ settledTxs st !! t = Some b ∧
    ancestor (blockParents st) blockHash b.
Proof.
  intros He Hdone. destruct e as [b p|x|b]; simpl in He.
  - apply Some_pair_inv in He as [-> ->].
    destruct (onNewBlock_ids api st b p) as [_ Hnone]. rewrite Hnone in Hdone.
    destruct (block_settles_shared api st b p) as [Hd _]. rewrite Hd in Hdone.
    destruct Hdone as [[? ?]|?%elem_of_nil]; done.
  - apply Some_pair_inv in He as [-> ->]. exfalso.
    destruct (decide (x ∈ known st)).
    + rewrite onNewTx_known in Hdone by done.
      destruct Hdone as [[? ?]|?%elem_of_nil]; done.
    + rewrite onNewTx_unknown in Hdone by done.
      destruct Hdone as [[? ?]|?%elem_of_nil]; done.
  - destruct (onFinalized_ids _ _ _ _ _ _ He) as (fin & Hw & Hids & _).
    unfold onFinalized in He. rewrite Hw in He.
    apply Some_pair_inv in He as [-> ->].
    destruct (done_loop_state api (txs_to_done fin (settledTxs st))
                (newTxs st) st) as (_ & _ & _ & Hd & _).
    assert (t ∈ txs_to_done fin (settledTxs st)) as HD.
    { destruct Hdone as [[Hin Hout]|Hin].
      - apply Hd in Hin as [?|[? _]]; done.
      - rewrite Hids in Hin. by apply list_elem_of_filter in Hin as [? _]. }
    apply elem_of_txs_to_done in HD as (blk & Hblk & Hfin).
    exists b, blk. split_and!; [done..|].
    by apply (ancestor_walk _ _ _ _ blk Hw).
Qed.

Lemma done_only_by_finalization_demo :
  ∃ blockHash b,
    Finalized "b2" = Finalized blockHash ∧
    settledTxs (state_of (run demo_api 4 init demo_events)) !! "t2" = Some b ∧
    ancestor (blockParents (state_of (run demo_api 4 init demo_events)))
             blockHash b.
Proof.
  apply (done_only_by_finalization demo_api 4
           (state_of (run demo_api 4 init demo_events)) (Finalized "b2")
           (state_of (handle demo_api 4
                        (state_of (run demo_api 4 init demo_events))
                        (Finalized "b2")))
           (trace_of (handle demo_api 4
                        (state_of (run demo_api 4 init demo_events))
                        (Finalized "b2"))) "t2").
  - vm_compute. reflexivity.
  - right. vm_compute. right. left.
Defined.

(** ** Outcomes *)

Section Outcomes.
Variable api : API.

Lemma onNewBlock_calls st blockHash parent :
  (onNewBlock api st blockHash parent).2
  = GetBody blockHash ::
    concat (map (settle_calls api blockHash)
              (fresh (dom (settledTxs st) ∪ doneTxs st)
                     (getBody api blockHash))).
Proof.
  rewrite onNewBlock_unfold. cbn [snd]. f_equal.
  exact (settle_loop_calls api blockHash (getBody api blockHash)
           (record_parent st blockHash parent)).
Qed.

Lemma onNewBlock_settled_call st blockHash parent t o :
  OnTxSettled t o ∈ (onNewBlock api st blockHash parent).2 →
  t ∈ getBody api blockHash ∧ unsettled st t ∧
  o = outcome_of api blockHash t.
Proof.
  rewrite onNewBlock_calls.
  intros [?|(x & Hx & Hc)%elem_of_concat_map]%elem_of_cons; [done|].
  apply elem_of_fresh in Hx as [Hx Hseen].
  apply elem_of_settle_calls in Hc as [?|[[? _]|[= -> ->]]]; [done..|].
  split_and!; [done| |done].
  rewrite elem_of_union, elem_of_dom in Hseen. split.
  - destruct (settledTxs st !! x) eqn:Hs; [|done]. destruct Hseen. left. eauto.
  - tauto.
Qed.

Lemma onNewBlock_no_done_call st blockHash parent t o :
  OnTxDone t o ∉ (onNewBlock api st blockHash parent).2.
Proof.
  rewrite onNewBlock_calls.
  intros [?|(x & Hx & Hc)%elem_of_concat_map]%elem_of_cons; [done|].
  by apply elem_of_settle_calls in Hc as [?|[[? _]|?]].
Qed.

Lemma onFinalized_calls fuel st blockHash st' tr :
  NoDup (newTxs st) →
  onFinalized api fuel st blockHash = Some (st', tr) →
  ∃ fin,
    walk fuel (blockParents st) blockHash ∅ = Some fin ∧
    tr = concat (map (λ t, done_calls api (get_or_empty (settledTxs st) t) t)
                   (filter (λ t, t ∈ txs_to_done fin (settledTxs st))
                           (newTxs st))).
Proof.
  intros Hnd He. unfold onFinalized in He.
  destruct (walk _ _ _ _) as [fin|]; [|done].
  apply Some_pair_inv in He as [-> ->]. exists fin. split; [done|].
  by apply done_loop_calls.
Qed.

Lemma onFinalized_done_call fuel st blockHash st' tr t o :
  NoDup (newTxs st) →
  onFinalized api fuel st blockHash = Some (st', tr) →
  OnTxDone t o ∈ tr →
  ∃ b, settledTxs st !! t = Some b ∧ o = outcome_of api b t.
Proof.
  intros Hnd He Hin.
  destruct (onFinalized_calls _ _ _ _ _ Hnd He) as (fin & _ & ->).
  apply elem_of_concat_map in Hin as (x & Hx & Hc).
  apply list_elem_of_filter in Hx as [(b & Hb & _)%elem_of_txs_to_done _].
  apply elem_of_done_calls in Hc as [?|[[? _]|[= -> ->]]]; [done..|].
  exists b. split; [done|]. unfold get_or_empty. by rewrite Hb.
Qed.

Lemma onFinalized_no_settled_call fuel st blockHash st' tr t o :
  onFinalized api fuel st blockHash = Some (st', tr) →
  OnTxSettled t o ∉ tr.
Proof.
  intros (fin & _ & _ & Hnone)%onFinalized_ids Hin.
  assert (t ∈ settled_ids tr) as Ht
    by (apply list_elem_of_omap; by exists (OnTxSettled t o)).
  rewrite Hnone in Ht. by apply elem_of_nil in Ht.
Qed.

(** The outcome reported at settlement is the one the oracle gives for
    the recorded settlement block, and a later [onTxDone] repeats it. *)
Lemma outcomes_agree_handle fuel st tr0 e st' tr :
  consistent st tr0 →
  (∀ t o b, OnTxSettled t o ∈ tr0 → settledTxs st !! t = Some b →
            o = outcome_of api b t) →
  (∀ t o o', OnTxSettled t o ∈ tr0 → OnTxDone t o' ∈ tr0 → o = o') →
  handle api fuel st e = Some (st', tr) →
  (∀ t o b, OnTxSettled t o ∈ tr0 ++ tr → settledTxs st' !! t = Some b →
            o = outcome_of api b t) ∧
  (∀ t o o', OnTxSettled t o ∈ tr0 ++ tr → OnTxDone t o' ∈ tr0 ++ tr →
             o = o').
Proof.
  intros [[Hsep Hnd Hq Hbk] [_ Hs _ Hd _]] Ha Hb He.
  assert (∀ t o, OnTxSettled t o ∈ tr0 →
                 is_Some (settledTxs st !! t) ∨ t ∈ doneTxs st) as Hold.
  { intros t o Hin. apply Hs, list_elem_of_omap. by exists (OnTxSettled t o). }
  assert (∀ t o, OnTxDone t o ∈ tr0 → t ∈ doneTxs st) as Hodone.
  { intros t o Hin. apply Hd, list_elem_of_omap. by exists (OnTxDone t o). }
  destruct e as [b p|x|b]; simpl in He.
  - apply Some_pair_inv in He as [-> ->].
    pose proof (onNewBlock_unfold api st b p) as Hunf.
    destruct (settle_loop_state api b (getBody api b) (record_parent st b p))
      as (_ & _ & _ & Hs' & _ & _).
    rewrite Hunf. cbn [fst]. rewrite <- Hunf. split.
    + intros t o b' [Hin|Hin]%elem_of_app; rewrite Hs'.
      * rewrite decide_False.
        { simpl. by apply Ha. }
        intros [_ [Hn Hnd']]. simpl in *.
        destruct (Hold t o Hin) as [[? ?]|?]; [congruence|done].
      * apply onNewBlock_settled_call in Hin as (Hbody & Hu & ->).
        rewrite decide_True by done. by intros [= ->].
    + intros t o o' Hin [Hin'|Hin']%elem_of_app;
        [|by apply onNewBlock_no_done_call in Hin'].
      apply elem_of_app in Hin as [Hin|Hin]; [by eapply Hb|].
      apply onNewBlock_settled_call in Hin as (_ & [_ Hnd'] & _).
      destruct Hnd'. by eapply Hodone.
  - apply Some_pair_inv in He as [-> ->].
    destruct (decide (x ∈ known st));
      [rewrite onNewTx_known by done|rewrite onNewTx_unknown by done];
      cbn [fst snd]; rewrite app_nil_r; (split; [|done]);
      intros t o b Hin; by apply Ha.
  - pose proof He as Hcall.
    unfold onFinalized in He. destruct (walk _ _ _ _) as [fin|]; [|done].
    apply Some_pair_inv in He as [Hst' Htr].
    destruct (done_loop_state api (txs_to_done fin (settledTxs st))
                (newTxs st) st) as (_ & _ & _ & _ & Hs').
    rewrite <- Hst' in Hs'. split.
    + intros t o b' [Hin|Hin]%elem_of_app;
        [|by eapply onFinalized_no_settled_call in Hin].
      rewrite Hs'. case_decide; [done|]. by apply Ha.
    + intros t o o' [Hin|Hin]%elem_of_app;
        [|by eapply onFinalized_no_settled_call in Hin].
      intros [Hin'|Hin']%elem_of_app; [by eapply Hb|].
      destruct (onFinalized_done_call _ _ _ _ _ _ _ Hnd Hcall Hin')
        as (blk & Hblk & ->).
      by eapply Ha.
Qed.

Lemma outcomes_agree_run fuel events st tr0 st' tr :
  consistent st tr0 →
  (∀ t o b, OnTxSettled t o ∈ tr0 → settledTxs st !! t = Some b →
            o = outcome_of api b t) →
  (∀ t o o', OnTxSettled t o ∈ tr0 → OnTxDone t o' ∈ tr0 → o = o') →
  run api fuel st events = Some (st', tr) →
  ∀ t o o', OnTxSettled t o ∈ tr0 ++ tr → OnTxDone t o' ∈ tr0 ++ tr → o = o'.
Proof.
  revert st tr0 tr. induction events as [|e events IH]; intros st tr0 tr Hc Ha Hb.
  - intros [= <- <-]. by rewrite app_nil_r.
  - intros (st1 & tr1 & tr2 & He & Hr & ->)%run_cons.
    destruct (outcomes_agree_handle _ _ _ _ _ _ Hc Ha Hb He) as [Ha1 Hb1].
    rewrite app_assoc. eapply IH; [|done..].
    by eapply consistent_handle.
Qed.
End Outcomes.

(** X9: for a transaction reported both settled and done, the two
    notifications carry the same outcome (same block, same validity and
    success), the oracle giving the same answer both times. *)
Theorem same_outcome_settled_and_done api fuel events t o o' :
  OnTxSettled t o ∈ emitted api fuel init events →
  OnTxDone t o' ∈ emitted api fuel init events →
  o = o'.
Proof.
  destruct (emitted_run api fuel events init) as (handled & st & _ & Hrun).
  apply (outcomes_agree_run api fuel handled init [] st
           (emitted api fuel init events)).
  - split; [apply well_formed_init|apply reported_init].
  - by intros ??? ?%elem_of_nil.
  - by intros ??? ?%elem_of_nil.
  - done.
Qed.

Lemma same_outcome_settled_and_done_demo :
  Valid "b1" false = Valid "b1" false.
Proof.
  apply (same_outcome_settled_and_done demo_api 4
           (demo_events ++ [Finalized "b2"]) "t2").
  - apply (bool_decide_unpack _). vm_compute. exact I.
  - apply (bool_decide_unpack _). vm_compute. exact I.
Defined.

(** ** Repeated events *)

Lemma ancestor_trans parents b a c :
  ancestor parents b a → ancestor parents a c → ancestor parents b c.
Proof.
  induction 1 as [b Hne|b a Hne _ IH]; [done|].
  intros Hc. apply ancestor_step; auto.
Qed.

Lemma walk_any_start fuel parents b acc acc' :
  is_Some (walk fuel parents b acc) → is_Some (walk fuel parents b acc').
Proof.
  revert b acc acc'. induction fuel as [|fuel IH]; intros b acc acc'.
  - by intros [? ?].
  - simpl. destruct (decide (b = "")); [eauto|]. apply IH.
Qed.

Lemma walk_from_ancestor fuel parents b acc a :
  is_Some (walk fuel parents b acc) → ancestor parents b a →
  is_Some (walk fuel parents a ∅).
Proof.
  intros Hw Ha. revert fuel acc Hw.
  induction Ha as [b Hne|b a Hne _ IH]; intros fuel acc Hw.
  - by eapply walk_any_start.
  - destruct fuel as [|fuel]; [by destruct Hw|].
    simpl in Hw. destruct (decide (b = "")); [done|].
    destruct (IH _ _ Hw) as [fin Hfin]. exists fin.
    eapply walk_more_fuel; [done|lia].
Qed.

(** X10: once a [Finalized] event has been handled, a [Finalized] event
    for the same block, or for any block its walk passed through,
    returns with the same fuel, changes nothing and calls nothing. *)
Theorem refinalization_is_noop api fuel0 events st tr0 fuel blockHash st' tr a :
  run api fuel0 init events = Some (st, tr0) →
  handle api fuel st (Finalized blockHash) = Some (st', tr) →
  ancestor (blockParents st) blockHash a →
  handle api fuel st' (Finalized a) = Some (st', []).
Proof.
  intros Hrun He Ha.
  destruct (consistent_run _ _ _ _ _ Hrun) as [[_ _ Hq _] _].
  simpl in *. unfold onFinalized in *.
  destruct (walk fuel (blockParents st) blockHash ∅) as [fin|] eqn:Hw; [|done].
  apply Some_pair_inv in He as [Hst' _].
  destruct (done_loop_state api (txs_to_done fin (settledTxs st))
              (newTxs st) st) as (_ & Hn & Hb & _ & Hs).
  rewrite <- Hst' in Hn, Hb, Hs. rewrite Hb.
  destruct (walk_from_ancestor fuel (blockParents st) blockHash ∅ a)
    as [fin' Hw']; [by rewrite Hw|done|].
  rewrite Hw'. f_equal. apply done_loop_nothing.
  intros t Ht (b & Hb' & Hin)%elem_of_txs_to_done.
  rewrite Hs in Hb'. case_decide as Hc; [done|]. apply Hc.
  split; [|by rewrite <- Hn].
  apply elem_of_txs_to_done. exists b. split; [done|].
  apply (ancestor_walk _ _ _ _ b Hw). eapply ancestor_trans; [done|].
  by apply (ancestor_walk _ _ _ _ b Hw').
Qed.

Lemma refinalization_is_noop_demo :
  handle demo_api 4
    (state_of (handle demo_api 4 (state_of (run demo_api 4 init demo_events))
                 (Finalized "b2")))
    (Finalized "b1")
  = Some (state_of (handle demo_api 4
                      (state_of (run demo_api 4 init demo_events))
                      (Finalized "b2")), []).
Proof.
  apply (refinalization_is_noop demo_api 4 demo_events
           (state_of (run demo_api 4 init demo_events))
           (trace_of (run demo_api 4 init demo_events)) 4 "b2" _
           (trace_of (handle demo_api 4
                        (state_of (run demo_api 4 init demo_events))
                        (Finalized "b2")))).
  - vm_compute. reflexivity.
  - vm_compute. reflexivity.
  - apply (ancestor_walk 4 _ _ {["b2"; "b1"; "genesis"]});
      [vm_compute; reflexivity|].
    apply (bool_decide_unpack _). vm_compute. exact I.
Defined.

(** X11: announcing a block a second time, whatever the parent named,
    fetches its body again and does nothing else than overwrite the
    parent link: every transaction of the body is skipped. *)
Theorem reannounced_block_is_quiet api st blockHash parent parent' :
  onNewBlock api (onNewBlock api st blockHash parent).1 blockHash parent'
  = (record_parent (onNewBlock api st blockHash parent).1 blockHash parent',
     [GetBody blockHash]).
Proof.
  rewrite (onNewBlock_unfold api (onNewBlock api st blockHash parent).1).
  rewrite settle_loop_nothing; [done|].
  intros t Ht [Hs Hd].
  rewrite onNewBlock_unfold in Hs, Hd. cbn [fst] in Hs, Hd. simpl in Hs, Hd.
  destruct (settle_loop_state api blockHash (getBody api blockHash)
              (record_parent st blockHash parent))
    as (Hd' & _ & _ & Hs' & _ & _).
  rewrite Hs' in Hs. rewrite Hd' in Hd. case_decide as Hc; [done|].
  apply Hc. split; [done|]. split; done.
Qed.

(** ** Announcements *)

Lemma handle_parents api fuel st e st' tr :
  handle api fuel st e = Some (st', tr) →
  blockParents st' = announce (blockParents st) e.
Proof.
  destruct e as [b p|x|b]; simpl.
  - intros [-> _]%Some_pair_inv. rewrite onNewBlock_unfold. cbn [fst].
    by destruct (settle_loop_state api b (getBody api b) (record_parent st b p))
      as (_ & -> & _).
  - intros [-> _]%Some_pair_inv. unfold onNewTx. by case_match.
  - unfold onFinalized. destruct (walk _ _ _ _) as [fin|]; [|done].
    intros [-> _]%Some_pair_inv.
    by destruct (done_loop_state api (txs_to_done fin (settledTxs st))
                   (newTxs st) st) as (_ & _ & -> & _).
Qed.

Lemma handle_fetched api fuel st e st' tr :
  handle api fuel st e = Some (st', tr) →
  fetched tr = option_list (announced_block e).
Proof.
  assert (∀ {A} (body : state → A → state * list call) l st0,
            (∀ st x, fetched (body st x).2 = []) →
            fetched (for_each body st0 l).2 = []) as Hloop.
  { intros A body l st0 Hbody.
    apply (for_each_trace body (λ tr, fetched tr = [])); [done| |done].
    intros a b Ha Hb. unfold fetched in *. by rewrite omap_app, Ha, Hb. }
  destruct e as [b p|x|b]; simpl.
  - intros [_ ->]%Some_pair_inv. rewrite onNewBlock_unfold. cbn [snd].
    unfold fetched. simpl. f_equal. apply Hloop.
    intros st0 x. unfold settle_tx, oracle_calls.
    case_match; [done|]. cbn [snd]. by destruct (isTxValid api b x).
  - intros [_ ->]%Some_pair_inv. unfold onNewTx. by case_match.
  - unfold onFinalized. destruct (walk _ _ _ _) as [fin|]; [|done].
    intros [_ ->]%Some_pair_inv. apply Hloop.
    intros st0 x. unfold done_tx, oracle_calls.
    case_match; [|done]. cbn [snd]. by destruct (isTxValid api _ x).
Qed.

(** X12: after any run, the parent map holds, for each announced
    block, the parent named by the last [NewBlock] event for it, and
    nothing else: [NewTransaction] and [Finalized] events never touch
    it. *)
Theorem parent_links_are_last_announcements api fuel events st tr :
  run api fuel init events = Some (st, tr) →
  blockParents st = announced_links events.
Proof.
  unfold announced_links.
  change (∅ : gmap string string) with (blockParents init).
  generalize init. intros st0. revert st0 tr.
  induction events as [|e events IH]; intros st0 tr.
  - by intros [= <- <-].
  - intros (st1 & tr1 & tr2 & He & Hr & ->)%run_cons.
    simpl. rewrite <- (handle_parents _ _ _ _ _ _ He). by eapply IH.
Qed.

Lemma parent_links_are_last_announcements_demo :
  blockParents (state_of (run demo_api 4 init demo_events))
  = announced_links demo_events.
Proof.
  apply (parent_links_are_last_announcements demo_api 4 demo_events _
           (trace_of (run demo_api 4 init demo_events))).
  vm_compute. reflexivity.
Defined.

(** X13: the body of a block is fetched exactly once for each
    [NewBlock] event, at that event, and by no other event: the blocks
    fetched during a run are the blocks announced, in order and with
    their repetitions. *)
Theorem body_fetched_once_per_announcement api fuel st events st' tr :
  run api fuel st events = Some (st', tr) →
  fetched tr = omap announced_block events.
Proof.
  revert st tr. induction events as [|e events IH]; intros st tr.
  - by intros [= <- <-].
  - intros (st1 & tr1 & tr2 & He & Hr & ->)%run_cons.
    unfold fetched in *. rewrite omap_app, (IH _ _ Hr).
    pose proof (handle_fetched _ _ _ _ _ _ He) as Hf. unfold fetched in Hf.
    rewrite Hf. simpl. by destruct (announced_block e).
Qed.

Lemma body_fetched_once_per_announcement_demo :
  fetched (trace_of (run demo_api 4 init (demo_events ++ [Finalized "b2"])))
  = ["b1"; "b1'"; "b2"].
Proof.
  apply (body_fetched_once_per_announcement demo_api 4 init
           (demo_events ++ [Finalized "b2"])
           (state_of (run demo_api 4 init (demo_events ++ [Finalized "b2"])))).
  vm_compute. reflexivity.
Defined.

(** ** Use of the oracle *)

Section OracleUse.
Variable api : API.

(** A success query sits right after the validity query for the same
    pair, and that query was answered [true]. *)
Lemma success_after_valid_app a b :
  (∀ tr1 blk t tr2, a = tr1 ++ IsTxSuccessful blk t :: tr2 →
     isTxValid api blk t = true ∧ ∃ tr0, tr1 = tr0 ++ [IsTxValid blk t]) →
  (∀ tr1 blk t tr2, b = tr1 ++ IsTxSuccessful blk t :: tr2 →
     isTxValid api blk t = true ∧ ∃ tr0, tr1 = tr0 ++ [IsTxValid blk t]) →
  ∀ tr1 blk t tr2, a ++ b = tr1 ++ IsTxSuccessful blk t :: tr2 →
     isTxValid api blk t = true ∧ ∃ tr0, tr1 = tr0 ++ [IsTxValid blk t].
Proof.
  intros Ha Hb tr1 blk t tr2 Heq.
  apply app_eq_middle in Heq as [(k & -> & _)|(k & -> & ->)].
  - by eapply Ha.
  - destruct (Hb k blk t tr2 eq_refl) as (Hv & tr0 & ->).
    split; [done|]. exists (a ++ tr0). by rewrite app_assoc.
Qed.

Lemma success_after_valid_chunk blk x c :
  (∀ b t, c ≠ IsTxSuccessful b t) →
  ∀ tr1 b t tr2,
    oracle_calls api blk x ++ [c] = tr1 ++ IsTxSuccessful b t :: tr2 →
    isTxValid api b t = true ∧ ∃ tr0, tr1 = tr0 ++ [IsTxValid b t].
Proof.
  intros Hc tr1 b t tr2. unfold oracle_calls.
  destruct (isTxValid api blk x) eqn:Hv; simpl; intros Heq.
  - destruct tr1 as [|c1 [|c2 [|c3 tr1]]]; simpl in Heq; simplify_eq.
    + split; [done|]. by exists [].
    + by destruct (Hc b t).
    + by destruct tr1.
  - destruct tr1 as [|c1 [|c2 tr1]]; simpl in Heq; simplify_eq.
    + by destruct (Hc b t).
    + by destruct tr1.
Qed.
End OracleUse.

(** X14: [isTxSuccessful] is asked only about a pair for which
    [isTxValid] has just answered [true]: the call before it in the
    trace is [isTxValid] for the same block and transaction. *)
Theorem success_asked_only_when_valid api fuel events tr1 blockHash t tr2 :
  emitted api fuel init events = tr1 ++ IsTxSuccessful blockHash t :: tr2 →
  isTxValid api blockHash t = true ∧
  ∃ tr0, tr1 = tr0 ++ [IsTxValid blockHash t].
Proof.
  revert tr1 blockHash t tr2.
  apply (emitted_trace api
           (λ tr, ∀ tr1 b t tr2, tr = tr1 ++ IsTxSuccessful b t :: tr2 →
                    isTxValid api b t = true
                    ∧ ∃ tr0, tr1 = tr0 ++ [IsTxValid b t])).
  - intros tr1 b t tr2 Heq. by destruct tr1.
  - apply success_after_valid_app.
  - intros b0 tr1 b t tr2 Heq. destruct tr1 as [|? [|]]; done.
  - intros b0 st x. unfold settle_tx. case_match; cbn [snd].
    + intros tr1 b t tr2 Heq. by destruct tr1.
    + by apply success_after_valid_chunk.
  - intros D st x. unfold done_tx. case_match; cbn [snd].
    + by apply success_after_valid_chunk.
    + intros tr1 b t tr2 Heq. by destruct tr1.
Qed.

Lemma success_asked_only_when_valid_demo :
  isTxValid demo_api "b1" "t2" = true ∧
  ∃ tr0, [GetBody "b1"; IsTxValid "b1" "t2"] = tr0 ++ [IsTxValid "b1" "t2"].
Proof.
  apply (success_asked_only_when_valid demo_api 4 demo_events _ "b1" "t2"
           (skipn 3 (emitted demo_api 4 init demo_events))).
  vm_compute. reflexivity.
Defined.

Section FetchedFirst.
Variable api : API.

(** A query made while settling or finishing a transaction is about
    the block of that iteration. *)
Lemma query_in_settle_calls blk x c b :
  c ∈ settle_calls api blk x →
  (∃ t, c = IsTxValid b t ∨ c = IsTxSuccessful b t) → b = blk.
Proof.
  intros [-> | [[-> _] | ->]]%elem_of_settle_calls [t [?|?]]; by simplify_eq.
Qed.

Lemma query_in_done_calls blk x c b :
  c ∈ done_calls api blk x →
  (∃ t, c = IsTxValid b t ∨ c = IsTxSuccessful b t) → b = blk.
Proof.
  intros [-> | [[-> _] | ->]]%elem_of_done_calls [t [?|?]]; by simplify_eq.
Qed.

Lemma fetched_first_handle fuel st tr0 e st' tr :
  consistent st tr0 →
  (∀ t b, settledTxs st !! t = Some b → GetBody b ∈ tr0) →
  (∀ tr1 c b tr2,
      (∃ t, c = IsTxValid b t ∨ c = IsTxSuccessful b t) →
      tr0 = tr1 ++ c :: tr2 → GetBody b ∈ tr1) →
  handle api fuel st e = Some (st', tr) →
  (∀ t b, settledTxs st' !! t = Some b → GetBody b ∈ tr0 ++ tr) ∧
  (∀ tr1 c b tr2,
      (∃ t, c = IsTxValid b t ∨ c = IsTxSuccessful b t) →
      tr0 ++ tr = tr1 ++ c :: tr2 → GetBody b ∈ tr1).
Proof.
  intros [[_ Hnd _ _] _] HK HQ He.
  destruct e as [b p|x|b]; simpl in He.
  - apply Some_pair_inv in He as [-> ->].
    pose proof (onNewBlock_calls api st b p) as Hcalls.
    pose proof (onNewBlock_unfold api st b p) as Hunf.
    destruct (settle_loop_state api b (getBody api b) (record_parent st b p))
      as (_ & _ & _ & Hs' & _ & _).
    rewrite Hunf. cbn [fst]. rewrite <- Hunf. split.
    + intros t b'. rewrite Hs'. case_decide.
      * intros [= <-]. rewrite Hcalls. apply elem_of_app. right. left.
      * intros Hb'. apply elem_of_app. left. by eapply HK.
    + intros tr1 c b' tr2 Hc Heq.
      apply app_eq_middle in Heq as [(k & -> & _)|(k & -> & Hk)].
      * by eapply HQ.
      * rewrite Hcalls in Hk. destruct k as [|c0 k]; simpl in Hk.
        { destruct Hc as [t [Hc|Hc]]; by simplify_eq. }
        injection Hk as <- Hk.
        assert (c ∈ concat (map (settle_calls api b)
                              (fresh (dom (settledTxs st) ∪ doneTxs st)
                                     (getBody api b)))) as Hin
          by (rewrite Hk; set_solver).
        apply elem_of_concat_map in Hin as (x & _ & Hin).
        rewrite (query_in_settle_calls _ _ _ _ Hin Hc). set_solver.
  - apply Some_pair_inv in He as [-> ->].
    destruct (decide (x ∈ known st));
      [rewrite onNewTx_known by done|rewrite onNewTx_unknown by done];
      cbn [fst snd]; rewrite app_nil_r; done.
  - destruct (onFinalized_calls api _ _ _ _ _ Hnd He) as (fin & Hw & Hcalls).
    unfold onFinalized in He. rewrite Hw in He.
    apply Some_pair_inv in He as [Hst' _].
    destruct (done_loop_state api (txs_to_done fin (settledTxs st))
                (newTxs st) st) as (_ & _ & _ & _ & Hs').
    rewrite <- Hst' in Hs'. split.
    + intros t b'. rewrite Hs'. case_decide; [done|].
      intros Hb'. apply elem_of_app. left. by eapply HK.
    + intros tr1 c b' tr2 Hc Heq.
      apply app_eq_middle in Heq as [(k & -> & _)|(k & -> & Hk)].
      * by eapply HQ.
      * assert (c ∈ tr) as Hin by (rewrite Hk; set_solver).
        rewrite Hcalls in Hin.
        apply elem_of_concat_map in Hin as (x & Hx & Hin).
        apply list_elem_of_filter in Hx
          as [(blk & Hblk & _)%elem_of_txs_to_done _].
        unfold get_or_empty in Hin. rewrite Hblk in Hin. simpl in Hin.
        rewrite (query_in_done_calls _ _ _ _ Hin Hc).
        apply elem_of_app. left. by eapply HK.
Qed.

Lemma fetched_first_run fuel events st tr0 st' tr :
  consistent st tr0 →
  (∀ t b, settledTxs st !! t = Some b → GetBody b ∈ tr0) →
  (∀ tr1 c b tr2,
      (∃ t, c = IsTxValid b t ∨ c = IsTxSuccessful b t) →
      tr0 = tr1 ++ c :: tr2 → GetBody b ∈ tr1) →
  run api fuel st events = Some (st', tr) →
  ∀ tr1 c b tr2,
    (∃ t, c = IsTxValid b t ∨ c = IsTxSuccessful b t) →
    tr0 ++ tr = tr1 ++ c :: tr2 → GetBody b ∈ tr1.
Proof.
  revert st tr0 tr. induction events as [|e events IH]; intros st tr0 tr Hc HK HQ.
  - intros [= <- <-]. by rewrite app_nil_r.
  - intros (st1 & tr1 & tr2 & He & Hr & ->)%run_cons.
    destruct (fetched_first_handle _ _ _ _ _ _ Hc HK HQ He) as [HK1 HQ1].
    rewrite app_assoc. eapply IH; [|done..].
    by eapply consistent_handle.
Qed.
End FetchedFirst.

(** X15: the oracle is asked about validity or success only for a
    block whose body was fetched earlier in the run; in particular the
    fallback of line 104 to the empty block name is never used for a
    query. *)
Theorem oracle_asked_only_about_fetched_blocks
    api fuel events tr1 c blockHash tr2 :
  (∃ t, c = IsTxValid blockHash t ∨ c = IsTxSuccessful blockHash t) →
  emitted api fuel init events = tr1 ++ c :: tr2 →
  GetBody blockHash ∈ tr1.
Proof.
  destruct (emitted_run api fuel events init) as (handled & st & _ & Hrun).
  apply (fetched_first_run api fuel handled init [] st
           (emitted api fuel init events)).
  - split; [apply well_formed_init|apply reported_init].
  - intros t b. simpl. by rewrite lookup_empty.
  - intros k c' b' k' _ Heq. by destruct k.
  - done.
Qed.

Lemma oracle_asked_only_about_fetched_blocks_demo :
  GetBody "b1" ∈ firstn 17 (emitted demo_api 4 init
                              (demo_events ++ [Finalized "b2"])).
Proof.
  apply (oracle_asked_only_about_fetched_blocks demo_api 4
           (demo_events ++ [Finalized "b2"]) _ (IsTxValid "b1" "t2") "b1"
           (skipn 18 (emitted demo_api 4 init
                        (demo_events ++ [Finalized "b2"])))).
  - exists "t2". by left.
  - vm_compute. reflexivity.
Defined.

(** ** Growth *)

Lemma handle_grows api fuel st e st' tr :
  handle api fuel st e = Some (st', tr) →
  doneTxs st ⊆ doneTxs st' ∧
  dom (blockParents st) ⊆ dom (blockParents st').
Proof.
  intros He. split.
  - destruct e as [b p|x|b]; simpl in He.
    + apply Some_pair_inv in He as [-> _].
      by destruct (block_settles_shared api st b p) as [-> _].
    + apply Some_pair_inv in He as [-> _]. unfold onNewTx. by case_match.
    + unfold onFinalized in He. destruct (walk _ _ _ _) as [fin|]; [|done].
      apply Some_pair_inv in He as [-> _].
      destruct (done_loop_state api (txs_to_done fin (settledTxs st))
                  (newTxs st) st) as (_ & _ & _ & Hd & _).
      intros t Ht. apply Hd. by left.
  - rewrite (handle_parents _ _ _ _ _ _ He).
    destruct e; simpl; [|done..]. rewrite dom_insert. set_solver.
Qed.

(** X16: the tracker forgets nothing: along any run the arrival queue
    only grows at its end, and the done set, the set of recorded blocks
    and the set of known identifiers only grow. *)
Theorem nothing_is_forgotten api fuel st events st' tr :
  run api fuel st events = Some (st', tr) →
  newTxs st `prefix_of` newTxs st' ∧
  doneTxs st ⊆ doneTxs st' ∧
  dom (blockParents st) ⊆ dom (blockParents st') ∧
  known st ⊆ known st'.
Proof.
  intros Hrun. split; [rewrite (run_queue _ _ _ _ _ _ Hrun); by eexists|].
  revert st tr Hrun. induction events as [|e events IH]; intros st tr.
  - by intros [= <- <-].
  - intros (st1 & tr1 & tr2 & He & Hr & ->)%run_cons.
    destruct (IH _ _ Hr) as (Hd & Hb & Hk).
    destruct (handle_grows _ _ _ _ _ _ He) as [Hd1 Hb1].
    destruct (handle_queue _ _ _ _ _ _ He) as [_ Hk1].
    split_and!; [set_solver..|].
    intros t Ht. apply Hk, Hk1. by left.
Qed.

Lemma nothing_is_forgotten_demo :
  newTxs (state_of (run demo_api 4 init demo_events))
    `prefix_of`
    newTxs (state_of (run demo_api 5 (state_of (run demo_api 4 init demo_events))
                        [NewBlock "b3" "b2"; Finalized "b3"])) ∧
  doneTxs (state_of (run demo_api 4 init demo_events))
    ⊆ doneTxs (state_of (run demo_api 5
                           (state_of (run demo_api 4 init demo_events))
                           [NewBlock "b3" "b2"; Finalized "b3"])) ∧
  dom (blockParents (state_of (run demo_api 4 init demo_events)))
    ⊆ dom (blockParents
             (state_of (run demo_api 5
                          (state_of (run demo_api 4 init demo_events))
                          [NewBlock "b3" "b2"; Finalized "b3"]))) ∧
  known (state_of (run demo_api 4 init demo_events))
    ⊆ known (state_of (run demo_api 5
                         (state_of (run demo_api 4 init demo_events))
                         [NewBlock "b3" "b2"; Finalized "b3"])).
Proof.
  apply (nothing_is_forgotten demo_api 5
           (state_of (run demo_api 4 init demo_events))
           [NewBlock "b3" "b2"; Finalized "b3"] _
           (trace_of (run demo_api 5
                        (state_of (run demo_api 4 init demo_events))
                        [NewBlock "b3" "b2"; Finalized "b3"]))).
  vm_compute. reflexivity.
Defined.

(** ** Length of the walk *)

Lemma walk_within_bound fuel parents b acc fin (V : gset string) :
  walk fuel parents b acc = Some fin →
  V ⊆ dom parents →
  (∀ v, v ∈ V → ancestor parents (get_or_empty parents v) b) →
  walk (size (dom parents ∖ V) + 2) parents b acc = Some fin.
Proof.
  revert b acc V. induction fuel as [|fuel IH]; intros b acc V Hw HV Hback;
    [done|].
  replace (size (dom parents ∖ V) + 2) with (S (size (dom parents ∖ V) + 1))
    by lia.
  pose proof Hw as Hw0. simpl in Hw |- *.
  destruct (decide (b = "")) as [->|Hne]; [done|].
  destruct (decide (get_or_empty parents b = "")) as [Hp|Hp].
  - rewrite Hp in *. destruct fuel as [|fuel]; [done|]. simpl in Hw.
    replace (size (dom parents ∖ V) + 1) with (S (size (dom parents ∖ V)))
      by lia.
    done.
  - assert (b ∈ dom parents) as Hdom.
    { apply elem_of_dom. unfold get_or_empty in Hp.
      destruct (parents !! b); [eauto|done]. }
    assert (b ∉ V) as HbV.
    { intros Hin.
      rewrite (walk_cycle_diverges parents b b) in Hw0; [done| |].
      - by apply Hback.
      - by constructor. }
    assert (size (dom parents ∖ V)
            = S (size (dom parents ∖ ({[b]} ∪ V)))) as ->.
    { assert (dom parents ∖ V = {[b]} ∪ dom parents ∖ ({[b]} ∪ V)) as ->.
      { apply set_eq. intros x. destruct (decide (x = b)); set_solver. }
      rewrite size_union by set_solver. by rewrite size_singleton. }
    replace (S (size (dom parents ∖ ({[b]} ∪ V))) + 1)
      with (size (dom parents ∖ ({[b]} ∪ V)) + 2) by lia.
    apply IH; [done|set_solver|].
    intros v [->%elem_of_singleton|Hv]%elem_of_union.
    + by constructor.
    + eapply ancestor_trans; [by apply Hback|].
      apply ancestor_step; [done|]. by constructor.
Qed.

(** X17: a [Finalized] event that is handled at all is handled within
    as many tests of the loop condition as there are recorded blocks,
    plus two: a walk that returns never visits a recorded block twice. *)
Theorem walk_bounded_by_recorded_blocks api fuel st blockHash r :
  handle api fuel st (Finalized blockHash) = Some r →
  handle api (size (blockParents st) + 2) st (Finalized blockHash) = Some r.
Proof.
  simpl. unfold onFinalized.
  destruct (walk fuel (blockParents st) blockHash ∅) as [fin|] eqn:Hw; [|done].
  intros <-.
  pose proof (walk_within_bound _ _ _ _ _ ∅ Hw) as Hb.
  rewrite difference_empty_L, size_dom in Hb.
  rewrite Hb; [done|set_solver|set_solver].
Qed.

Lemma walk_bounded_by_recorded_blocks_demo :
  handle demo_api
    (size (blockParents (state_of (run demo_api 4 init demo_events))) + 2)
    (state_of (run demo_api 4 init demo_events)) (Finalized "b2")
  = Some (state_of (handle demo_api 9
                      (state_of (run demo_api 4 init demo_events))
                      (Finalized "b2")),
          trace_of (handle demo_api 9
                      (state_of (run demo_api 4 init demo_events))
                      (Finalized "b2"))).
Proof.
  apply (walk_bounded_by_recorded_blocks demo_api 9).
  vm_compute. reflexivity.
Defined.
